(** * Session and presence manager of the chat gateway

    A shallow embedding of [server/src/client/client-manager.ts]
    (class [ClientManager]) together with the properties of its
    registry, presence fan-out, mention resolution and message path.

    The event handlers of the class are embedded as computations in a
    small state-and-exception monad over the manager's fields.  Each
    handler is embedded as one computation, run from its call to its
    return; [onClientAuthenticated], which suspends at its [await]s, is
    embedded a second time in its stages, for the runs in which other
    events arrive while a login waits.  The bot script [bot/bot.js] is
    embedded at the end of the definitions. *)

From Stdlib Require Import Ascii String NArith.
From stdpp Require Import base option list strings gmap pretty.

Set Warnings "-clear-no-such-hyp".


(** ** JavaScript [Map<string, V>]

    A [Map] iterates in insertion order; [set] on a present key keeps
    the key's position, [delete] removes the entry. *)
Module JsMap.
Definition t (V : Type) : Type := list (string * V).

Section ops.
Context {V : Type}.
Implicit Types (k : string) (v : V) (m : t V).

Definition empty : t V := [].

Fixpoint get k m : option V :=
  match m with
  | [] => None
  | (k', v) :: m' => if decide (k = k') then Some v else get k m'
  end.

Definition has k m : bool :=
  match get k m with Some _ => true | None => false end.

Fixpoint set k v m : t V :=
  match m with
  | [] => [(k, v)]
  | (k', v') :: m' =>
      if decide (k = k') then (k, v) :: m' else (k', v') :: set k v m'
  end.

Fixpoint delete k m : t V :=
  match m with
  | [] => []
  | (k', v') :: m' =>
      if decide (k = k') then delete k m' else (k', v') :: delete k m'
  end.

Definition values m : list V := map snd m.
Definition keys m : list string := map fst m.
End ops.
End JsMap.

(** ** JavaScript string helpers *)

(** [s.split(c)] for a one-character separator: consecutive separators
    give empty pieces and the empty string gives one empty piece. *)
Fixpoint split (c : ascii) (s : string) : list string :=
  match s with
  | EmptyString => [EmptyString]
  | String a s' =>
      if decide (a = c) then EmptyString :: split c s'
      else match split c s' with
           | [] => [String a EmptyString]
           | w :: ws => String a w :: ws
           end
  end.

(** [s.startsWith(p)] *)
Definition startsWith (p s : string) : bool := String.prefix p s.

(** [s.substr(from, len)] and [s.substr(from)] for in-range [from]. *)
Definition substr (from len : nat) (s : string) : string :=
  String.substring from len s.
Definition substr_from (from : nat) (s : string) : string :=
  String.substring from (String.length s - from) s.

(** A string is falsy exactly when it is empty. *)
Definition truthy (s : string) : bool :=
  match s with EmptyString => false | String _ _ => true end.

(** ** Collaborators that are not part of the manager *)

(** The persisted user entity ([User] of the store): the fields the
    manager reads and writes. *)
Module User.
Record t : Type := mk {
  id : string;
  name : string;
  avatar : string;
  lastLogin : N;
  bot : bool
}.

(** [User.findOne({ id })]: the first row whose id matches. *)
Definition findOne (i : string) (db : list t) : option t :=
  List.find (fun u => bool_decide (id u = i)) db.

(** [user.save()]: update the row with this id or add one. *)
Fixpoint save (u : t) (db : list t) : list t :=
  match db with
  | [] => [u]
  | u' :: db' =>
      if decide (id u' = id u) then u :: db' else u' :: save u db'
  end.
End User.

(** The serialized identity sent to clients. *)
Record Serialized : Type := mkSerialized {
  ser_id : string;
  ser_name : string;
  ser_avatarUrl : string;
  ser_isBot : bool
}.

(** Modelled from the spec: the [Client] class (the in-memory identity)
    is not among the sources.  Following the data model it holds the
    user record and the set of its live connections; [registerSocket]
    attaches a connection to that set, [unregisterSocket] removes it and
    answers whether the set became empty, and [serialize] gives the
    serialized identity shape [{id, name, avatarUrl, isBot}]. *)
Module Client.
Record t : Type := mk {
  user : User.t;
  sockets : gset string
}.

Definition id (c : t) : string := User.id (user c).
Definition name (c : t) : string := User.name (user c).

Definition serialize (c : t) : Serialized :=
  mkSerialized (User.id (user c)) (User.name (user c))
               (User.avatar (user c)) (User.bot (user c)).

Definition registerSocket (socket : string) (c : t) : t :=
  mk (user c) ({[socket]} ∪ sockets c).

Definition unregisterSocket (socket : string) (c : t) : bool * t :=
  let rest := sockets c ∖ {[socket]} in
  (bool_decide (rest = ∅), mk (user c) rest).
End Client.

(** The decoded token payload. *)
Record Token : Type := mkToken { tok_id : string }.

(** The login payload [{token?, name?, bot?}]. *)
Record ClientAuthRequest : Type := mkRequest {
  req_token : option string;
  req_name : option string;
  req_bot : bool
}.

(** The only exception the handlers themselves can raise: a property
    read on [undefined]. *)
Inductive JsError : Type := TypeError.

Inductive Res (A : Type) : Type :=
| Ok (a : A)
| Throw (e : JsError).
Arguments Ok {A} a.
Arguments Throw {A} e.

(** References to [Client] objects: both maps of the manager hold the
    same object, so the objects live in a store. *)
Definition Ref : Type := nat.

Section ClientManager.
(** The rate limiter's state and the embed payload are foreign. *)
Context {RateLimit EmbedPayload : Type}.

Inductive Event : Type :=
| Ready (user : Serialized) (members : list Serialized) (token : string)
| SysJoin (c : Serialized)
| SysLeave (c : Serialized)
| UsrTyp (id name : string)
| UsrMsg (id user content : string) (embed : option EmbedPayload)
         (mentions : list string)
| UserEdit (c : Serialized).

(** [io.emit] reaches every connection, [socket.emit] one. *)
Inductive Emit : Type :=
| IoEmit (e : Event)
| SocketEmit (socket : string) (e : Event).

Record State : Type := mkState {
  clients : JsMap.t Ref;
  sockets : JsMap.t Ref;
  heap : Ref -> Client.t;
  nextRef : Ref;
  messageRateLimit : RateLimit;
  snowFlake : N;
  users : list User.t;
  emitted : list Emit
}.

Definition set_clients (f : JsMap.t Ref -> JsMap.t Ref) (st : State) : State :=
  mkState (f (clients st)) (sockets st) (heap st) (nextRef st)
          (messageRateLimit st) (snowFlake st) (users st) (emitted st).
Definition set_sockets (f : JsMap.t Ref -> JsMap.t Ref) (st : State) : State :=
  mkState (clients st) (f (sockets st)) (heap st) (nextRef st)
          (messageRateLimit st) (snowFlake st) (users st) (emitted st).
Definition set_heap (r : Ref) (c : Client.t) (st : State) : State :=
  mkState (clients st) (sockets st)
          (fun r' => if decide (r' = r) then c else heap st r') (nextRef st)
          (messageRateLimit st) (snowFlake st) (users st) (emitted st).
Definition set_nextRef (n : Ref) (st : State) : State :=
  mkState (clients st) (sockets st) (heap st) n
          (messageRateLimit st) (snowFlake st) (users st) (emitted st).
Definition set_messageRateLimit (rl : RateLimit) (st : State) : State :=
  mkState (clients st) (sockets st) (heap st) (nextRef st)
          rl (snowFlake st) (users st) (emitted st).
Definition set_snowFlake (n : N) (st : State) : State :=
  mkState (clients st) (sockets st) (heap st) (nextRef st)
          (messageRateLimit st) n (users st) (emitted st).
Definition set_users (f : list User.t -> list User.t) (st : State) : State :=
  mkState (clients st) (sockets st) (heap st) (nextRef st)
          (messageRateLimit st) (snowFlake st) (f (users st)) (emitted st).
Definition add_emitted (e : Emit) (st : State) : State :=
  mkState (clients st) (sockets st) (heap st) (nextRef st)
          (messageRateLimit st) (snowFlake st) (users st) (emitted st ++ [e]).

(** *** The monad of the handlers

    A handler reads and writes the manager's fields and may raise; what
    it did before raising stays done. *)
Definition M (A : Type) : Type := State -> Res A * State.

#[global] Instance M_ret : MRet M := fun A a st => (Ok a, st).
#[global] Instance M_bind : MBind M := fun A B f m st =>
  match m st with
  | (Ok a, st') => f a st'
  | (Throw e, st') => (Throw e, st')
  end.

Definition gets {A} (f : State -> A) : M A := fun st => (Ok (f st), st).
Definition modify (f : State -> State) : M unit := fun st => (Ok tt, f st).
Definition throw {A} (e : JsError) : M A := fun st => (Throw e, st).
Definition io_emit (e : Event) : M unit := modify (add_emitted (IoEmit e)).
Definition socket_emit (socket : string) (e : Event) : M unit :=
  modify (add_emitted (SocketEmit socket e)).

(** The state a handler leaves and what it answered. *)
Definition exec {A} (m : M A) (st : State) : State := snd (m st).
Definition result {A} (m : M A) (st : State) : Res A := fst (m st).

(** *** Services injected into the manager

    The token service, the validators, the rate limiter and the command
    manager are not among the sources; the manager is written against
    their interface. *)
Class Services : Type := {
  (** [tokenService.decode]: [None] stands for the raised error. *)
  decode : string -> option Token;
  createToken : string -> string;
  (** [normalizeName]: [None] stands for the raised error. *)
  normalizeName : string -> option string;
  escapeHtml : string -> string;
  validateEmbed : option EmbedPayload -> option EmbedPayload;
  (** [RateLimit.check(key)] asked at a given time. *)
  check : RateLimit -> string -> N -> bool * RateLimit;
  (** [commandManager.handle(this, client, text)]: a handler may use the
      whole manager, so it is a computation of the same monad. *)
  handle : option Ref -> string -> M bool
}.

Context {services : Services}.

(** [snowFlake.nextId().toString()]: the generator is a counter. *)
Definition nextId : M string := fun st =>
  (Ok (pretty (snowFlake st)), set_snowFlake (N.succ (snowFlake st)) st).

(** [container.resolve(Client)] followed by [client.user = user]. *)
Definition newClient (u : User.t) : M Ref := fun st =>
  (Ok (nextRef st),
   set_nextRef (S (nextRef st)) (set_heap (nextRef st) (Client.mk u ∅) st)).

Definition registerSocket (c : Ref) (socket : string) : M unit :=
  modify (fun st => set_heap c (Client.registerSocket socket (heap st c)) st).

Definition unregisterSocket (c : Ref) (socket : string) : M bool := fun st =>
  let '(emptied, c') := Client.unregisterSocket socket (heap st c) in
  (Ok emptied, set_heap c c' st).

(** [updateUser] and [get] of the manager. *)
Definition updateUser (c : Ref) : M unit :=
  s ← gets (fun st => Client.serialize (heap st c));
  io_emit (UserEdit s).

Definition get (id : string) (st : State) : option Ref :=
  JsMap.get id (clients st).

(** *** [getMentions] and [sendMessage] *)

(** Modelled from the spec: [selectMany] of the map utilities is not
    among the sources; it maps every element to a sequence and
    concatenates the sequences in order. *)
Definition selectMany {A B} (l : list A) (f : A -> list B) : list B :=
  concat (map f l).

Definition getMentions (content : string) (st : State) : list string :=
  if negb (truthy content) then []
  else
    selectMany
      (map (substr_from 1)
           (List.filter (startsWith "@") (split " "%char content)))
      (fun nick =>
         map Client.id
             (List.filter (fun c => bool_decide (Client.name c = nick))
                          (map (heap st) (JsMap.values (clients st))))).

Definition sendMessage (userId content : string)
           (embed : option EmbedPayload) : M unit :=
  id ← nextId;
  mentions ← gets (getMentions content);
  io_emit (UsrMsg id userId (escapeHtml content) (validateEmbed embed) mentions).

(** *** The event handlers

    Logging has no counterpart.  Neither has the registration of the
    listeners ([socket.on]): a handler can be run on any socket id, and
    [onClientConnected], which only registers listeners and sends the
    command list, is left out. *)

Definition onClientDisconnect (socket : string) : M unit :=
  client ← gets (fun st => JsMap.get socket (sockets st));
  modify (set_sockets (JsMap.delete socket));;
  match client with
  | None => mret tt
  | Some c =>
      emptied ← unregisterSocket c socket;
      if emptied : bool then
        id ← gets (fun st => Client.id (heap st c));
        modify (set_clients (JsMap.delete id));;
        s ← gets (fun st => Client.serialize (heap st c));
        io_emit (SysLeave s)
      else mret tt
  end.

(** Lines 58-60: a socket that is already registered is disconnected
    first. *)
Definition disconnectIfRegistered (socket : string) : M unit :=
  known ← gets (fun st => JsMap.has socket (sockets st));
  if known : bool then onClientDisconnect socket else mret tt.

(** Lines 62-72: the identity id of a login. *)
Definition decodeToken (request : ClientAuthRequest) : option Token :=
  match req_token request with
  | Some t => if truthy t then decode t else None
  | None => None
  end.

Definition resolveId (request : ClientAuthRequest) : M string :=
  match decodeToken request with
  | Some token => mret (tok_id token)
  | None => nextId
  end.

(** Lines 78-96: the user record of a new client. *)
Definition prepareUser (now : N) (image : string) (socket id : string)
           (request : ClientAuthRequest) (found : option User.t) : User.t :=
  let user :=
    match found with
    | Some u => u
    | None => User.mk id ("anon-" +:+ substr 0 6 socket) image 0%N false
    end in
  let named :=
    match req_name request with
    | Some n =>
        if truthy n then
          match normalizeName n with
          | Some n' => n'
          | None => User.name user
          end
        else User.name user
    | None => User.name user
    end in
  User.mk (User.id user) named (User.avatar user) now (req_bot request).

(** Lines 74-105: look the identity up, create it when absent. *)
Definition findOrCreateClient (now : N) (image : string) (socket id : string)
           (request : ClientAuthRequest) : M (Ref * bool) :=
  client ← gets (fun st => JsMap.get id (clients st));
  match client with
  | Some c => mret (c, false)
  | None =>
      found ← gets (fun st => User.findOne id (users st));
      let user := prepareUser now image socket id request found in
      modify (set_users (User.save user));;
      c ← newClient user;
      modify (set_clients (JsMap.set id c));;
      mret (c, true)
  end.

(** Lines 62-121: the login once the socket is known to be unregistered. *)
Definition authenticate (now : N) (image : string) (socket : string)
           (request : ClientAuthRequest) : M unit :=
  id ← resolveId request;
  ci ← findOrCreateClient now image socket id request;
  let client := fst ci in
  registerSocket client socket;;
  modify (set_sockets (JsMap.set socket client));;
  ready ← gets (fun st =>
    Ready (Client.serialize (heap st client))
          (map (fun c => Client.serialize (heap st c))
               (JsMap.values (clients st)))
          (createToken (Client.id (heap st client))));
  socket_emit socket ready;;
  if snd ci : bool then
    s ← gets (fun st => Client.serialize (heap st client));
    io_emit (SysJoin s)
  else mret tt.

(** [now] is the value of [new Date()] and [image] the answer of
    [imageService.getRandomImage()], both used on the new-client path
    only. *)
Definition onClientAuthenticated (now : N) (image : string) (socket : string)
           (request : ClientAuthRequest) : M unit :=
  disconnectIfRegistered socket;;
  authenticate now image socket request.

Definition onClientStartTyping (socket : string) : M unit :=
  client ← gets (fun st => JsMap.get socket (sockets st));
  match client with
  | None => throw TypeError
  | Some c =>
      e ← gets (fun st => UsrTyp (Client.id (heap st c)) (Client.name (heap st c)));
      io_emit e
  end.

(** [now] is the time at which the rate limiter is asked. *)
Definition onClientMessageReceived (now : N) (socket : string)
           (message : string) : M unit :=
  client ← gets (fun st => JsMap.get socket (sockets st));
  consumed ← handle client message;
  if consumed : bool then mret tt
  else
    allowed ← (fun st =>
      let '(ok, rl) := check (messageRateLimit st) socket now in
      (Ok ok, set_messageRateLimit rl st));
    if negb allowed then mret tt
    else
      let message :=
        if (256 <? String.length message)%nat then substr 0 256 message
        else message in
      match client with
      | None => throw TypeError
      | Some c =>
          id ← gets (fun st => Client.id (heap st c));
          sendMessage id message None
      end.

(** *** Sequences of logins and disconnects

    [step] runs one handler from its call to its return with no other
    handler in between, and [run] does so for a list of them.  The event
    loop gives exactly this for [onClientDisconnect], which never
    suspends.  A login suspends at its three [await]s (l.78, l.84,
    l.98): [step] describes it only when no other event of the manager
    is handled during those waits.  Logins that overlap are described
    by [authStart] and [authResume] below. *)

Inductive Op : Type :=
| Login (now : N) (image : string) (socket : string) (request : ClientAuthRequest)
| Disconnect (socket : string).

Definition step (st : State) (op : Op) : State :=
  match op with
  | Login now image socket request =>
      exec (onClientAuthenticated now image socket request) st
  | Disconnect socket => exec (onClientDisconnect socket) st
  end.

Definition run (ops : list Op) (st : State) : State := foldl step st ops.

(** The manager as its constructor leaves it. *)
Definition init (rl : RateLimit) (db : list User.t) (seed : N) : State :=
  mkState JsMap.empty JsMap.empty (fun _ => Client.mk (User.mk EmptyString EmptyString EmptyString 0%N false) ∅)
          0 rl seed db [].

(** *** A login in its stages

    [onClientAuthenticated] is an [async] function: it runs without
    interruption from one [await] to the next, and other handlers may
    run while it waits.  A login that found no client under its id
    (l.74-77) waits for [User.findOne] (l.78), for [getRandomImage]
    when no record was found (l.84) and for [user.save] (l.98).
    [Pending] is such a waiting login, with the local variables it
    holds; [authStart] is the handler up to its first wait, and
    [authResume] takes a waiting login to its next wait or to its
    end. *)

Inductive Pending : Type :=
| AwaitFind (socket id : string) (request : ClientAuthRequest)
| AwaitImage (socket id : string) (request : ClientAuthRequest)
| AwaitSave (socket id : string) (request : ClientAuthRequest) (user : User.t).

(** l.107-121, which no [await] interrupts. *)
Definition completeLogin (socket : string) (client : Ref) (isNew : bool) : M unit :=
  registerSocket client socket;;
  modify (set_sockets (JsMap.set socket client));;
  ready ← gets (fun st =>
    Ready (Client.serialize (heap st client))
          (map (fun c => Client.serialize (heap st c)) (JsMap.values (clients st)))
          (createToken (Client.id (heap st client))));
  socket_emit socket ready;;
  if isNew then
    s ← gets (fun st => Client.serialize (heap st client));
    io_emit (SysJoin s)
  else mret tt.

(** l.58-78: up to the wait for [User.findOne], or to the end when the
    id has a client. *)
Definition authStart (socket : string) (request : ClientAuthRequest)
  : M (option Pending) :=
  disconnectIfRegistered socket;;
  id ← resolveId request;
  client ← gets (fun st => JsMap.get id (clients st));
  match client with
  | Some c => completeLogin socket c false;; mret None
  | None => mret (Some (AwaitFind socket id request))
  end.

(** From one wait to the next.  The store answers [findOne] with what
    it holds when the login resumes. *)
Definition authResume (now : N) (image : string) (p : Pending)
  : M (option Pending) :=
  match p with
  | AwaitFind socket id request =>
      found ← gets (fun st => User.findOne id (users st));
      match found with
      | None => mret (Some (AwaitImage socket id request))
      | Some u =>
          mret (Some (AwaitSave socket id request
                        (prepareUser now image socket id request (Some u))))
      end
  | AwaitImage socket id request =>
      mret (Some (AwaitSave socket id request
                    (prepareUser now image socket id request None)))
  | AwaitSave socket id request user =>
      modify (set_users (User.save user));;
      c ← newClient user;
      modify (set_clients (JsMap.set id c));;
      completeLogin socket c true;;
      mret None
  end.

(** A waiting login resumed until it ends; three resumptions reach the
    end from every stage. *)
Fixpoint authFinish (fuel : nat) (now : N) (image : string) (p : option Pending)
  : M unit :=
  match p, fuel with
  | None, _ => mret tt
  | Some _, O => mret tt
  | Some p, S fuel => p' ← authResume now image p; authFinish fuel now image p'
  end.

(** The stages run one after another with nothing in between. *)
Definition authAtOnce (now : N) (image socket : string) (request : ClientAuthRequest)
  : M unit :=
  p ← authStart socket request; authFinish 3 now image p.

(** The login a first stage left waiting. *)
Definition pendingOf (m : M (option Pending)) (st : State) : option Pending :=
  match result m st with Ok p => p | Throw _ => None end.

(** *** Ids the generator has issued

    Every id of the registry was issued by the generator, which counts
    upwards: it is the text of a number below the generator's next
    one. *)
Definition IssuedIds (st : State) : Prop :=
  forall id, is_Some (JsMap.get id (clients st)) ->
             exists n, id = pretty n /\ (n < snowFlake st)%N.

(** A request whose token, when it decodes, names an issued id: the
    server signs only ids it has issued. *)
Definition TokenIssued (request : ClientAuthRequest) (st : State) : Prop :=
  forall token, decodeToken request = Some token ->
                exists n, tok_id token = pretty n /\ (n < snowFlake st)%N.

Fixpoint TokensIssued (ops : list Op) (st : State) : Prop :=
  match ops with
  | [] => True
  | op :: ops =>
      match op with
      | Login _ _ _ request => TokenIssued request st
      | Disconnect _ => True
      end /\ TokensIssued ops (step st op)
  end.

(** *** What the handlers leave

    The state after a disconnect and after a login, written without the
    monad; the handlers are shown below to compute exactly these. *)

(** The state a disconnect leaves. *)
Definition afterDisconnect (socket : string) (st : State) : State :=
  let st1 := set_sockets (JsMap.delete socket) st in
  match JsMap.get socket (sockets st) with
  | None => st1
  | Some c =>
      let '(emptied, c') := Client.unregisterSocket socket (heap st c) in
      let st2 := set_heap c c' st1 in
      if emptied : bool then
        add_emitted (IoEmit (SysLeave (Client.serialize c')))
                    (set_clients (JsMap.delete (Client.id c')) st2)
      else st2
  end.

Record Inv (st : State) : Prop := mkInv {
  inv_clients : forall id c,
    JsMap.get id (clients st) = Some c ->
    c < nextRef st /\ Client.id (heap st c) = id /\ Client.sockets (heap st c) <> ∅;
  inv_sockets : forall s c,
    JsMap.get s (sockets st) = Some c ->
    s ∈ Client.sockets (heap st c) /\
    JsMap.get (Client.id (heap st c)) (clients st) = Some c;
  inv_owned : forall id c s,
    JsMap.get id (clients st) = Some c ->
    s ∈ Client.sockets (heap st c) ->
    JsMap.get s (sockets st) = Some c
}.

Definition loginId (request : ClientAuthRequest) (st : State) : string :=
  match decodeToken request with
  | Some token => tok_id token
  | None => pretty (snowFlake st)
  end.

Definition afterResolve (request : ClientAuthRequest) (st : State)
  : State :=
  match decodeToken request with
  | Some _ => st
  | None => set_snowFlake (N.succ (snowFlake st)) st
  end.

Definition readyEvent (c : Ref) (st : State) : Event :=
  Ready (Client.serialize (heap st c))
        (map (fun c' => Client.serialize (heap st c')) (JsMap.values (clients st)))
        (createToken (Client.id (heap st c))).

Definition attach (socket : string) (c : Ref) (st : State)
  : State :=
  let st' := set_sockets (JsMap.set socket c)
               (set_heap c (Client.registerSocket socket (heap st c)) st) in
  add_emitted (SocketEmit socket (readyEvent c st')) st'.

Definition afterAuthenticate (now : N) (image socket : string)
           (request : ClientAuthRequest) (st : State)
  : State :=
  let id := loginId request st in
  let st1 := afterResolve request st in
  match JsMap.get id (clients st1) with
  | Some c => attach socket c st1
  | None =>
      let user := prepareUser now image socket id request (User.findOne id (users st1)) in
      let c := nextRef st1 in
      let st2 := set_clients (JsMap.set id c)
                   (set_nextRef (S c)
                      (set_heap c (Client.mk user ∅)
                         (set_users (User.save user) st1))) in
      let st3 := attach socket c st2 in
      add_emitted (IoEmit (SysJoin (Client.serialize (heap st3 c)))) st3
  end.

(** Whether a login finds its identity absent from the registry. *)
Definition isNewIdentity (socket : string) (request : ClientAuthRequest)
           (st : State) : bool :=
  let st0 := exec (disconnectIfRegistered socket) st in
  match JsMap.get (loginId request st0) (clients st0) with
  | Some _ => false
  | None => true
  end.

(** The identities announced as joined, and as left, in a trace. *)
Definition joins (l : list Emit) : list Serialized :=
  omap (fun e => match e with IoEmit (SysJoin c) => Some c | _ => None end) l.
Definition leaves (l : list Emit) : list Serialized :=
  omap (fun e => match e with IoEmit (SysLeave c) => Some c | _ => None end) l.

End ClientManager.

Arguments Services : clear implicits.
Arguments State : clear implicits.
Arguments M : clear implicits.

(** ** Collaborators used by the examples

    Closed instances of the injected services, each written from what
    the specification says about the collaborator. *)

(** Modelled from the spec: [escapeHtml] of the string validator is not
    among the sources; it is HTML-special-character escaping, replacing
    the ampersand, the angle brackets and the two quote characters by
    their entities. *)
Definition escapeChar (a : ascii) : string :=
  if decide (a = "&"%char) then "&amp;"
  else if decide (a = "<"%char) then "&lt;"
  else if decide (a = ">"%char) then "&gt;"
  else if decide (a = ascii_of_nat 34) then "&quot;"
  else if decide (a = "'"%char) then "&#039;"
  else String a EmptyString.

Fixpoint escapeHtmlSpec (s : string) : string :=
  match s with
  | EmptyString => EmptyString
  | String a s' => escapeChar a +:+ escapeHtmlSpec s'
  end.

(** Modelled from the spec: the [RateLimit] class is not among the
    sources.  It allows [capacity] actions per [windowMillis] for each
    key: the first action of a key opens its window, actions inside the
    window are allowed until the capacity is used up and denied after
    that, and the first action after the window has elapsed opens a new
    one. *)
Module RateLimit.
Record t : Type := mk {
  capacity : N;
  windowMillis : N;
  windows : gmap string (N * N)
}.

Definition create (capacity windowMillis : N) : t := mk capacity windowMillis ∅.

Definition check (rl : t) (key : string) (now : N) : bool * t :=
  let fresh := mk (capacity rl) (windowMillis rl) (<[key := (1, now)]> (windows rl))%N in
  match windows rl !! key with
  | None => (true, fresh)
  | Some (count, start) =>
      if (now <? start + windowMillis rl)%N then
        if (count <? capacity rl)%N then
          (true, mk (capacity rl) (windowMillis rl)
                    (<[key := (count + 1, start)]> (windows rl))%N)
        else (false, rl)
      else (true, fresh)
  end.
End RateLimit.

(** The embed payload, with the fields of [Embed] in [models/index.ts]. *)
Record EmbedAuthor : Type := mkEmbedAuthor {
  author_value : string;
  author_iconUrl : string
}.

Record Embed : Type := mkEmbed {
  embed_author : option EmbedAuthor;
  embed_title : option string;
  embed_description : option string;
  embed_color : option N;
  embed_footer : option string;
  embed_imageUrl : option string;
  embed_thumbnailUrl : option string
}.

(** Modelled from the spec: the token service is not among the sources.
    [issue] embeds the identity id in the token and [verify] gives it
    back, failing on anything that is not an issued token; the signature
    is abstracted to a fixed prefix. *)
Module TokenService.
Definition createToken (id : string) : string := "signed:" +:+ id.

Definition decode (token : string) : option Token :=
  if startsWith "signed:" token then Some (mkToken (substr_from 7 token))
  else None.
End TokenService.

(** Modelled from the spec: [normalizeName] of the string validator is
    not among the sources; it enforces length bounds on the name and
    fails outside them (trimming and the charset are left out). *)
Definition normalizeNameSpec (name : string) : option string :=
  if bool_decide (1 <= String.length name <= 32)%nat then Some name else None.

(** Modelled from the spec: the command manager is not among the
    sources.  It holds an ordered table of triggers with their handlers,
    matched by prefix; the first matching command runs and consumes the
    text, and a text that matches no trigger is not consumed. *)
Module CommandManager.
Section dispatch.
Context {RateLimit EmbedPayload : Type}.

Record Command : Type := mkCommand {
  trigger : string;
  handler : option Ref -> string -> M RateLimit EmbedPayload unit
}.

Definition handle (commands : list Command) (client : option Ref)
           (text : string) : M RateLimit EmbedPayload bool :=
  match List.find (fun c => startsWith (trigger c) text) commands with
  | Some c => handler c client text;; mret true
  | None => mret false
  end.

(** The rename command: sets the display name of the issuer and
    announces the edit through [updateUser]. *)
Definition nick : Command :=
  mkCommand "/nick "
    (fun client text =>
       match client with
       | None => throw TypeError
       | Some c =>
           modify (fun st =>
             let u := Client.user (heap st c) in
             set_heap c
               (Client.mk (User.mk (User.id u) (substr_from 6 text) (User.avatar u)
                                   (User.lastLogin u) (User.bot u))
                          (Client.sockets (heap st c))) st);;
           updateUser c
       end).
End dispatch.
End CommandManager.

(** The services of the examples: five messages per five seconds, as
    the manager constructs its limiter. *)
#[global] Instance demo : Services RateLimit.t Embed := {
  decode := TokenService.decode;
  createToken := TokenService.createToken;
  normalizeName := normalizeNameSpec;
  escapeHtml := escapeHtmlSpec;
  validateEmbed := fun e => e;
  check := RateLimit.check;
  handle := CommandManager.handle [CommandManager.nick]
}.

Definition demo_init : State RateLimit.t Embed :=
  init (RateLimit.create 5 5000) [] 1000%N.

(** ** The mention resolver as the specification words it *)

Definition is_space (a : ascii) : bool := bool_decide (a = " "%char).

(** Space, tab, line feed, vertical tab, form feed, carriage return. *)
Definition is_whitespace (a : ascii) : bool :=
  let n := nat_of_ascii a in
  bool_decide (n = 32 \/ 9 <= n <= 13)%nat.

(** The maximal runs of non-separator characters, in order. *)
Fixpoint tokenize_go (sep : ascii -> bool) (cur : string) (s : string)
  : list string :=
  match s with
  | EmptyString => if truthy cur then [cur] else []
  | String a s' =>
      if sep a then
        (if truthy cur then [cur] else []) ++ tokenize_go sep EmptyString s'
      else tokenize_go sep (cur +:+ String a EmptyString) s'
  end.

Definition tokenize (sep : ascii -> bool) (s : string) : list string :=
  tokenize_go sep EmptyString s.

Definition stripMarker (token : string) : option string :=
  match token with
  | String a name => if decide (a = "@"%char) then Some name else None
  | EmptyString => None
  end.

(** The ids of the identities of [registry] whose display name is
    [name], in registry order. *)
Definition idsNamed (registry : list Client.t) (name : string) : list string :=
  map Client.id (List.filter (fun c => bool_decide (Client.name c = name)) registry).

Definition resolveMentions (sep : ascii -> bool) (registry : list Client.t)
           (text : string) : list string :=
  omap stripMarker (tokenize sep text) ≫= idsNamed registry.

(** The registry snapshot [getMentions] reads. *)
Definition registry {RateLimit EmbedPayload : Type}
           (st : State RateLimit EmbedPayload) : list Client.t :=
  map (heap st) (JsMap.values (clients st)).

(** ** Example states *)

Definition demo_request (token name : option string) : ClientAuthRequest :=
  mkRequest token name false.

(** Alice is connected, then Bob as well. *)
Definition demo_alice : State RateLimit.t Embed :=
  run [Login 1 "cat.png" "socket-alice"
             (demo_request (Some "signed:u1") (Some "Alice"))] demo_init.

Definition demo_alice_bob : State RateLimit.t Embed :=
  run [Login 2 "dog.png" "socket-bob"
             (demo_request (Some "signed:u2") (Some "Bob"))] demo_alice.

(** The second login of Alice's socket, stopped at its first [await]. *)
Definition demo_relogin_pending : State RateLimit.t Embed :=
  exec (disconnectIfRegistered "socket-alice") demo_alice.

(** Two sockets log in with Alice's token.  The second login starts
    while the first waits for the store; then the first runs to its
    end, and then the second. *)
Definition demo_overlap : State RateLimit.t Embed :=
  let request := demo_request (Some "signed:u1") None in
  let first := authStart "socket-a" request in
  let st1 := exec first demo_init in
  let second := authStart "socket-b" request in
  let st2 := exec second st1 in
  let st3 := exec (authFinish 3 1 "cat.png" (pendingOf first demo_init)) st2 in
  exec (authFinish 3 2 "dog.png" (pendingOf second st1)) st3.

(** One socket is connected, without a token. *)
Definition demo_anonymous : State RateLimit.t Embed :=
  run [Login 1 "cat.png" "socket-a" (demo_request None None)] demo_init.

Definition line_feed : ascii := ascii_of_nat 10.

Definition repeat_char (n : nat) (a : ascii) : string :=
  string_of_list_ascii (replicate n a).

(** ** Further invariants of the runs

    The keys of [clients] are distinct; the store holds the record of
    every registered client; joins and leaves balance the registry. *)
Section RunInvariants.
Context {RateLimit EmbedPayload : Type}.

Definition KeysDistinct (st : State RateLimit EmbedPayload) : Prop :=
  NoDup (JsMap.keys (clients st)).

Definition StoreAgrees (st : State RateLimit EmbedPayload) : Prop :=
  forall id c, JsMap.get id (clients st) = Some c ->
               User.findOne id (users st) = Some (Client.user (heap st c)).

Definition Balanced (st : State RateLimit EmbedPayload) : Prop :=
  length (joins (emitted st)) = length (leaves (emitted st)) + length (clients st).

End RunInvariants.

(** ** The client-side models ([models/index.ts]) *)
Module Models.
Inductive StatusType : Type := Online | Offline.

Record UserStatus : Type := mkUserStatus {
  statusText : option string;
  statusType : StatusType
}.

Record User : Type := mkUser {
  id : string;
  name : string;
  avatarUrl : option string;
  isBot : bool;
  status : option UserStatus
}.
End Models.

(** ** The bot ([bot/bot.js])

    The script keeps three variables and reacts to the gateway's events.
    What it sends is collected as the output of each handler; console
    output has no counterpart.  [members] is a plain object used as a
    table; the handlers below are those that write it at one key or
    not at all. *)
Module Bot.

(** The payloads the bot emits on its connection. *)
Inductive Payload : Type :=
| LoginPayload (token : option string) (bot : bool)
| CommandPayload (message : string)
| ContentPayload (content : string).

Inductive Out : Type :=
| Emit (event : string) (payload : Payload)
| HttpPost (url : string) (authorization : string).

(** [members], [currentUser] and [token] of the script. *)
Record State : Type := mkState {
  members : gmap string Models.User;
  currentUser : option Models.User;
  token : option string
}.

Definition init : State := mkState ∅ None None.

(** The [message:create] payload: the fields the handler reads, each of
    which may be missing. *)
Record Message : Type := mkMessage {
  msg_content : option string;
  msg_bot : bool;
  msg_message : option string
}.

Definition onConnect (st : State) : State * list Out :=
  (st, [Emit "login" (LoginPayload None true)]).

Definition onJoin (user : Models.User) (st : State) : State * list Out :=
  match currentUser st with
  | None => (st, [])
  | Some me =>
      if decide (Models.id user = Models.id me) then (st, [])
      else
        (mkState (<[Models.id user := user]> (members st)) (currentUser st) (token st),
         [Emit "usr-msg" (ContentPayload ("welcome " +:+ Models.name user +:+ "!"))])
  end.

Definition onLeave (user : Models.User) (st : State) : State * list Out :=
  (mkState (delete (Models.id user) (members st)) (currentUser st) (token st),
   [Emit "usr-msg" (ContentPayload ("bye " +:+ Models.name user +:+ " :sob:"))]).

Definition checkUrl : string := "https://chat-gateway.veld.dev/api/v1/channels/0/messages".

Definition helpText : string :=
  "!help" +:+ String (ascii_of_nat 10)
    ("!say <message>" +:+ String (ascii_of_nat 10) "!ping").

(** ["Bearer " + token], the token being [null] before [ready]. *)
Definition authorization (st : State) : string :=
  "Bearer " +:+ match token st with Some t => t | None => "null" end.

(** The [message:create] handler.  [posted] tells whether the request
    of [!check] is answered without error; the handler does not change
    the variables. *)
Definition onMessage (posted : bool) (message : Message) (st : State)
  : Res unit * list Out :=
  match msg_content message with
  | None => (Ok tt, [])
  | Some content =>
      if negb (truthy content) || msg_bot message then (Ok tt, [])
      else
        let check := bool_decide (content = "!check") in
        let out1 := if check then [HttpPost checkUrl (authorization st)] else [] in
        if check && negb posted then (Ok tt, out1)
        else
          let say :=
            if startsWith "!say" content then
              match msg_message message with
              | None => Throw TypeError
              | Some text => Ok [Emit "usr-msg" (ContentPayload (substr_from 4 text))]
              end
            else Ok [] in
          match say with
          | Throw e => (Throw e, out1)
          | Ok out2 =>
              let out3 :=
                if bool_decide (content = "!help")
                then [Emit "usr-msg" (ContentPayload helpText)] else [] in
              let out4 :=
                if startsWith "!remind" content
                then [Emit "usr-msg"
                        (ContentPayload "haha... no. I am too lazy to write this.")]
                else [] in
              (Ok tt, out1 ++ out2 ++ out3 ++ out4)
          end
  end.

End Bot.

(** The second character of a text tells the bot's commands apart. *)
Definition secondChar (s : string) : option ascii :=
  match s with
  | String _ (String a _) => Some a
  | _ => None
  end.

(** ** Example inputs of the bot *)

Definition bot_me : Models.User := Models.mkUser "1000" "BOT-miki" None true None.
Definition bot_guest : Models.User := Models.mkUser "1001" "anon-socket" None false None.

(** The bot once the server has answered its login: it knows its
    token and itself, the only member. *)
Definition bot_ready : Bot.State :=
  Bot.mkState (<["1000" := bot_me]> ∅) (Some bot_me) (Some "signed:1000").

(** ** Facts about [JsMap] *)

Module JsMapFacts.
Section facts.
Context {V : Type}.
Implicit Types (k : string) (v : V) (m : JsMap.t V).

Lemma get_set k' k v m :
  JsMap.get k' (JsMap.set k v m) = if decide (k' = k) then Some v else JsMap.get k' m.
Proof.
  induction m as [|[k0 v0] m IH]; simpl.
  - destruct (decide (k' = k)); reflexivity.
  - destruct (decide (k = k0)) as [->|Hne]; simpl.
    + destruct (decide (k' = k0)); reflexivity.
    + rewrite IH. destruct (decide (k' = k0)) as [->|]; [|reflexivity].
      destruct (decide (k0 = k)); congruence.
Qed.

Lemma get_delete k' k m :
  JsMap.get k' (JsMap.delete k m) = if decide (k' = k) then None else JsMap.get k' m.
Proof.
  induction m as [|[k0 v0] m IH]; simpl.
  - destruct (decide (k' = k)); reflexivity.
  - destruct (decide (k = k0)) as [->|Hne]; simpl.
    + rewrite IH. destruct (decide (k' = k0)); reflexivity.
    + rewrite IH. destruct (decide (k' = k0)) as [->|]; [|reflexivity].
      destruct (decide (k0 = k)); congruence.
Qed.

Lemma delete_absent k m : JsMap.get k m = None -> JsMap.delete k m = m.
Proof.
  induction m as [|[k0 v0] m IH]; simpl; [reflexivity|].
  destruct (decide (k = k0)); [discriminate|]. intros H. by rewrite IH.
Qed.

Lemma has_true k m : JsMap.has k m = true <-> is_Some (JsMap.get k m).
Proof.
  unfold JsMap.has. destruct (JsMap.get k m); split; intros H;
    try done; try (by eexists); by destruct H.
Qed.

Lemma has_false k m : JsMap.has k m = false <-> JsMap.get k m = None.
Proof. unfold JsMap.has. destruct (JsMap.get k m); split; intros H; done. Qed.
End facts.
End JsMapFacts.

Import JsMapFacts.


(** ** Facts about the string helpers *)

Lemma substr_length (n : nat) (s : string) :
  n <= String.length s -> String.length (substr 0 n s) = n.
Proof.
  unfold substr. revert s. induction n as [|n IH]; intros s Hn.
  - by destruct s.
  - destruct s as [|a s]; simpl in *; [lia|]. rewrite IH; [done|lia].
Qed.

Lemma substring_all (s : string) : String.substring 0 (String.length s) s = s.
Proof. induction s as [|a s IH]; simpl; [done|by rewrite IH]. Qed.

Lemma substr_from_1 (a : ascii) (s : string) : substr_from 1 (String a s) = s.
Proof. unfold substr_from. simpl. rewrite Nat.sub_0_r. apply substring_all. Qed.

Lemma append_cons (a : ascii) (s t : string) : String a s +:+ t = String a (s +:+ t).
Proof. reflexivity. Qed.

Lemma append_empty_r (s : string) : s +:+ EmptyString = s.
Proof. induction s as [|a s IH]; [done|]. by rewrite append_cons, IH. Qed.

Lemma append_assoc (s1 s2 s3 : string) : (s1 +:+ s2) +:+ s3 = s1 +:+ (s2 +:+ s3).
Proof. induction s1 as [|a s1 IH]; [done|]. by rewrite !append_cons, IH. Qed.

Lemma split_nonempty (c : ascii) (s : string) : split c s <> [].
Proof.
  destruct s as [|a s]; simpl; [done|].
  destruct (decide (a = c)); [done|]. by destruct (split c s).
Qed.

Lemma split_append (c : ascii) (a b : string) :
  split c (a +:+ String c b) = split c a ++ split c b.
Proof.
  induction a as [|x a IH]; [simpl|rewrite append_cons; simpl].
  - by rewrite decide_True.
  - destruct (decide (x = c)); [by rewrite IH|].
    rewrite IH. pose proof (split_nonempty c a). by destruct (split c a).
Qed.

Lemma split_no_separator (c : ascii) (s : string) :
  Forall (fun a => a <> c) (list_ascii_of_string s) -> split c s = [s].
Proof.
  induction s as [|a s IH]; simpl; [done|].
  intros H. apply Forall_cons in H as [Ha H].
  rewrite decide_False by done. by rewrite IH.
Qed.

Lemma startsWith_cons (a b : ascii) (w : string) :
  startsWith (String a EmptyString) (String b w) = bool_decide (a = b).
Proof.
  unfold startsWith.
  change (String.prefix (String a EmptyString) (String b w))
    with (if ascii_dec a b then String.prefix EmptyString w else false).
  destruct (ascii_dec a b) as [->|Hne].
  - rewrite bool_decide_eq_true_2 by done. by destruct w.
  - by rewrite bool_decide_eq_false_2.
Qed.

Lemma stripMarker_startsWith (w : string) :
  stripMarker w = if startsWith "@" w then Some (substr_from 1 w) else None.
Proof.
  destruct w as [|b w]; [done|]. rewrite startsWith_cons. unfold stripMarker.
  destruct (decide (b = "@"%char)) as [->|Hne].
  - rewrite substr_from_1. by rewrite bool_decide_eq_true_2.
  - rewrite bool_decide_eq_false_2; [done|congruence].
Qed.

Lemma omap_unfold {A B} (f : A -> option B) (x : A) (l : list A) :
  omap f (x :: l) = match f x with Some y => y :: omap f l | None => omap f l end.
Proof. reflexivity. Qed.

Lemma omap_stripMarker (l : list string) :
  omap stripMarker l = map (substr_from 1) (List.filter (startsWith "@") l).
Proof.
  induction l as [|w l IH]; [done|].
  rewrite omap_unfold, stripMarker_startsWith, IH. cbn [List.filter].
  by destruct (startsWith "@" w).
Qed.

Lemma omap_stripMarker_truthy (l : list string) :
  omap stripMarker (List.filter truthy l) = omap stripMarker l.
Proof.
  induction l as [|w l IH]; [done|]. cbn [List.filter].
  destruct w as [|b w]; cbn [truthy]; [by rewrite omap_unfold|].
  by rewrite !omap_unfold, IH.
Qed.

(** The tokens are the non-empty pieces of the split. *)
Lemma tokenize_go_split (c : ascii) (cur s : string) :
  tokenize_go (fun a => bool_decide (a = c)) cur s
  = match split c s with
    | [] => []
    | w :: ws => List.filter truthy ((cur +:+ w) :: ws)
    end.
Proof.
  revert cur. induction s as [|a s IH]; intros cur; simpl.
  - rewrite append_empty_r. by destruct (truthy cur).
  - case_bool_decide as Ha.
    + rewrite decide_True by done. rewrite IH, append_empty_r.
      pose proof (split_nonempty c s). destruct (split c s) as [|w ws]; [done|].
      simpl. by destruct (truthy cur).
    + rewrite decide_False by done. rewrite IH.
      pose proof (split_nonempty c s). destruct (split c s) as [|w ws]; [done|].
      by rewrite append_assoc.
Qed.

Lemma tokenize_space_split (s : string) :
  tokenize is_space s = List.filter truthy (split " " s).
Proof.
  unfold tokenize, is_space. rewrite tokenize_go_split.
  pose proof (split_nonempty " " s). by destruct (split " " s).
Qed.

Lemma concat_bind {A B} (f : A -> list B) (l : list A) : concat (map f l) = l ≫= f.
Proof. induction l as [|x l IH]; simpl; [done|by rewrite IH]. Qed.


(** ** Properties of the manager *)

Section Properties.
Context {RateLimit EmbedPayload : Type} {services : Services RateLimit EmbedPayload}.
Implicit Types (st : State RateLimit EmbedPayload) (c : Ref) (s socket id : string).


Ltac munfold :=
  unfold exec, result, mbind, M_bind, mret, M_ret, gets, modify, throw,
    io_emit, socket_emit in *.

Lemma onClientDisconnect_run socket st :
  onClientDisconnect socket st = (Ok tt, afterDisconnect socket st).
Proof.
  unfold onClientDisconnect, afterDisconnect, unregisterSocket. munfold. simpl.
  destruct (JsMap.get socket (sockets st)) as [c|]; [|reflexivity].
  simpl. destruct (bool_decide _); simpl; [|reflexivity].
  rewrite decide_True by reflexivity. reflexivity.
Qed.

Lemma afterDisconnect_sockets socket st :
  sockets (afterDisconnect socket st) = JsMap.delete socket (sockets st).
Proof.
  unfold afterDisconnect. destruct (JsMap.get socket (sockets st)); [|reflexivity].
  simpl. destruct (bool_decide _); reflexivity.
Qed.

Lemma afterDisconnect_unknown socket st :
  JsMap.get socket (sockets st) = None -> afterDisconnect socket st = st.
Proof.
  intros H. unfold afterDisconnect. rewrite H. unfold set_sockets.
  rewrite (delete_absent _ _ H). by destruct st.
Qed.

Lemma Inv_afterDisconnect socket st : Inv st -> Inv (afterDisconnect socket st).
Proof.
  intros [Hc Hs Ho].
  destruct (JsMap.get socket (sockets st)) as [c|] eqn:Hget;
    [|by rewrite afterDisconnect_unknown].
  destruct (Hs _ _ Hget) as [Hin Hreg].
  unfold afterDisconnect. rewrite Hget. simpl.
  case_bool_decide as Hemp; simpl.
  - split; simpl.
    + intros id c0. rewrite get_delete. case_decide as Hid; [done|]. intros Hg.
      destruct (Hc _ _ Hg) as (Hlt & Hidc & Hne).
      assert (c0 <> c) by (intros ->; unfold Client.id in *; simpl in *; congruence).
      rewrite decide_False by done. done.
    + intros s c0. rewrite !get_delete. case_decide; [done|]. intros Hg.
      destruct (Hs _ _ Hg) as [Hin0 Hreg0].
      assert (c0 <> c) by (intros ->; set_solver).
      rewrite decide_False by done. split; [done|].
      rewrite decide_False; [done|].
      unfold Client.id in *; simpl in *. intros Heq. rewrite Heq in Hreg0. congruence.
    + intros id c0 s. rewrite !get_delete. case_decide; [done|]. intros Hg.
      destruct (Hc _ _ Hg) as (Hlt & Hidc & Hne).
      assert (c0 <> c) by (intros ->; unfold Client.id in *; simpl in *; congruence).
      rewrite decide_False by done. intros Hin0.
      specialize (Ho _ _ _ Hg Hin0). case_decide; [congruence|done].
  - split; simpl.
    + intros id c0 Hg. destruct (Hc _ _ Hg) as (Hlt & Hidc & Hne).
      case_decide as Hc0; [subst c0|done]. done.
    + intros s c0. rewrite get_delete. case_decide; [done|]. intros Hg.
      destruct (Hs _ _ Hg) as [Hin0 Hreg0].
      case_decide as Hc0; [subst c0|done]. simpl. split; [set_solver|done].
    + intros id c0 s Hg. rewrite get_delete.
      case_decide as Hc0; [subst c0|]; simpl; intros Hin0.
      * rewrite decide_False by set_solver. apply (Ho id); [done|set_solver].
      * specialize (Ho _ _ _ Hg Hin0). case_decide; [congruence|done].
Qed.

Lemma authenticate_run now image socket request st :
  authenticate now image socket request st
  = (Ok tt, afterAuthenticate now image socket request st).
Proof.
  unfold authenticate, afterAuthenticate, resolveId, loginId, afterResolve,
    findOrCreateClient, registerSocket, newClient, nextId, attach, readyEvent.
  munfold.
  destruct (decodeToken request) as [tok|]; simpl.
  - destruct (JsMap.get (tok_id tok) (clients st)) as [c|]; simpl; reflexivity.
  - destruct (JsMap.get (pretty (snowFlake st)) (clients st)) as [c|]; simpl; reflexivity.
Qed.

Lemma onClientAuthenticated_run now image socket request st :
  onClientAuthenticated now image socket request st
  = (Ok tt, afterAuthenticate now image socket request (afterDisconnect socket st)).
Proof.
  unfold onClientAuthenticated, disconnectIfRegistered. munfold. simpl.
  destruct (JsMap.has socket (sockets st)) eqn:Hhas.
  - rewrite onClientDisconnect_run. apply authenticate_run.
  - apply has_false in Hhas. rewrite afterDisconnect_unknown by done.
    apply authenticate_run.
Qed.

Lemma findOne_id id db u : User.findOne id db = Some u -> User.id u = id.
Proof.
  unfold User.findOne. intros H. apply List.find_some in H as [_ H].
  by apply bool_decide_eq_true in H.
Qed.

Lemma prepareUser_id now image socket id request found :
  (forall u, found = Some u -> User.id u = id) ->
  User.id (prepareUser now image socket id request found) = id.
Proof. intros H. unfold prepareUser. simpl. destruct found; [by apply H|done]. Qed.

Lemma afterResolve_fields request st :
  clients (afterResolve request st) = clients st /\
  sockets (afterResolve request st) = sockets st /\
  heap (afterResolve request st) = heap st /\
  nextRef (afterResolve request st) = nextRef st /\
  users (afterResolve request st) = users st /\
  emitted (afterResolve request st) = emitted st /\
  messageRateLimit (afterResolve request st) = messageRateLimit st.
Proof. unfold afterResolve. destruct (decodeToken request); done. Qed.

Lemma Inv_afterResolve request st : Inv st -> Inv (afterResolve request st).
Proof.
  intros [Hc Hs Ho]. unfold afterResolve. destruct (decodeToken request); [done|].
  split; simpl; done.
Qed.

Lemma Inv_attach_registered socket id c st :
  Inv st -> JsMap.get socket (sockets st) = None ->
  JsMap.get id (clients st) = Some c ->
  Inv (attach socket c st).
Proof.
  intros [Hc Hs Ho] Hfresh Hreg. unfold attach.
  destruct (Hc _ _ Hreg) as (Hlt & Hid & Hne).
  split; simpl.
  - intros id0 c0 Hg. destruct (Hc _ _ Hg) as (? & ? & ?).
    case_decide as Hc0; [subst c0|done]. simpl.
    split; [done|]. split; [done|]. set_solver.
  - intros s c0. rewrite get_set. case_decide as Hs0.
    + intros [= <-]. rewrite decide_True by done. simpl.
      split; [set_solver|]. unfold Client.id in *. simpl. congruence.
    + intros Hg. destruct (Hs _ _ Hg) as [Hin0 Hreg0].
      case_decide as Hc0; [subst c0|done]. simpl. split; [set_solver|done].
  - intros id0 c0 s Hg. rewrite get_set.
    case_decide as Hc0; [subst c0|]; simpl; intros Hin0.
    + case_decide; [done|]. apply (Ho id0); [done|set_solver].
    + specialize (Ho _ _ _ Hg Hin0). case_decide; [congruence|done].
Qed.

Lemma Inv_afterAuthenticate now image socket request st :
  Inv st -> JsMap.get socket (sockets st) = None ->
  Inv (afterAuthenticate now image socket request st).
Proof.
  intros HI Hfresh. unfold afterAuthenticate.
  pose proof (Inv_afterResolve request st HI) as HI1.
  destruct (afterResolve_fields request st) as (Ecl & Eso & Ehe & Enr & Eus & Eem & Erl).
  rewrite <- Eso in Hfresh.
  set (st1 := afterResolve request st) in *.
  set (id := loginId request st).
  destruct (JsMap.get id (clients st1)) as [c|] eqn:Hreg.
  - apply (Inv_attach_registered socket id); [done|done|done].
  - remember (prepareUser now image socket id request (User.findOne id (users st1)))
      as user eqn:Euser.
    assert (User.id user = id) as Huid
      by (subst user; apply prepareUser_id; intros u; apply findOne_id).
    clear Euser.
    destruct HI1 as [Hc Hs Ho].
    assert (forall s c, JsMap.get s (sockets st1) = Some c -> c < nextRef st1) as Hlts.
    { intros s c Hg. destruct (Hs _ _ Hg) as [_ Hg']. by destruct (Hc _ _ Hg'). }
    split; simpl.
    + intros id0 c0. rewrite get_set. case_decide as Hid0.
      * intros [= <-]. rewrite !decide_True by done. simpl.
        split; [lia|]. split; [by subst|set_solver].
      * intros Hg. destruct (Hc _ _ Hg) as (? & ? & ?).
        rewrite !decide_False by lia. split; [lia|done].
    + intros s c0. rewrite !get_set. case_decide as Hs0.
      * intros [= <-]. rewrite !decide_True by done. simpl.
        split; [set_solver|]. unfold Client.id; simpl. done.
      * intros Hg. pose proof (Hlts _ _ Hg). destruct (Hs _ _ Hg) as [Hin0 Hreg0].
        rewrite !decide_False by lia. split; [done|].
        rewrite decide_False; [done|]. intros Heq. rewrite Heq in Hreg0. congruence.
    + intros id0 c0 s. rewrite !get_set. case_decide as Hid0.
      * intros [= <-]. rewrite !decide_True by done. simpl. intros Hin0.
        rewrite decide_True; [done|set_solver].
      * intros Hg. destruct (Hc _ _ Hg) as (? & ? & ?).
        rewrite !decide_False by lia. intros Hin0.
        specialize (Ho _ _ _ Hg Hin0).
        case_decide; [congruence|done].
Qed.

Lemma afterDisconnect_fresh socket st :
  JsMap.get socket (sockets (afterDisconnect socket st)) = None.
Proof. rewrite afterDisconnect_sockets, get_delete. by rewrite decide_True. Qed.

Lemma Inv_step (op : Op) st : Inv st -> Inv (step st op).
Proof.
  intros HI. destruct op as [now image socket request|socket]; unfold step, exec.
  - rewrite onClientAuthenticated_run. simpl.
    apply Inv_afterAuthenticate; [by apply Inv_afterDisconnect|apply afterDisconnect_fresh].
  - rewrite onClientDisconnect_run. simpl. by apply Inv_afterDisconnect.
Qed.

Lemma Inv_run (ops : list Op) st : Inv st -> Inv (run ops st).
Proof.
  revert st. induction ops as [|op ops IH]; intros st HI; [done|].
  apply IH, Inv_step, HI.
Qed.

Lemma Inv_init rl db seed : Inv (init rl db seed : State RateLimit EmbedPayload).
Proof. split; simpl; done. Qed.

(** Registry consistency of the runs in which every handler ends
    before the next begins.  After any such sequence of logins and
    disconnects, run from the manager as constructed: an identity is in
    [clients] exactly when some entry of [sockets] belongs to it; every
    entry of [sockets] points to a client that [clients] holds under
    that client's id; every client of [clients] has an entry of
    [sockets] pointing to it; and the connection set of a registered
    client is exactly the set of sockets that [sockets] maps to it.
    Logins that overlap break it: see [demo_overlap]. *)
Lemma registry_consistent (rl : RateLimit) (db : list User.t) (seed : N)
        (ops : list Op) :
  let st : State RateLimit EmbedPayload := run ops (init rl db seed) in
  (forall id, is_Some (JsMap.get id (clients st)) <->
              exists s c, JsMap.get s (sockets st) = Some c /\ Client.id (heap st c) = id)
  /\ (forall s c, JsMap.get s (sockets st) = Some c ->
                  JsMap.get (Client.id (heap st c)) (clients st) = Some c)
  /\ (forall id c, JsMap.get id (clients st) = Some c ->
                   exists s, JsMap.get s (sockets st) = Some c)
  /\ (forall id c s, JsMap.get id (clients st) = Some c ->
                     (s ∈ Client.sockets (heap st c) <-> JsMap.get s (sockets st) = Some c)).
Proof.
  intros st.
  assert (Inv st) as [Hc Hs Ho] by apply Inv_run, Inv_init.
  assert (forall id c, JsMap.get id (clients st) = Some c ->
                       exists s, JsMap.get s (sockets st) = Some c) as Hex.
  { intros id c Hg. destruct (Hc _ _ Hg) as (_ & _ & Hne).
    apply set_choose_L in Hne as [s Hin]. exists s. by apply (Ho id). }
  split; [|split; [|split]].
  - intros id. split.
    + intros [c Hg]. destruct (Hex _ _ Hg) as [s Hsock]. exists s, c.
      split; [done|]. by destruct (Hc _ _ Hg) as (_ & ? & _).
    + intros (s & c & Hsock & <-). exists c. by destruct (Hs _ _ Hsock).
  - intros s c Hsock. by destruct (Hs _ _ Hsock).
  - done.
  - intros id c s Hg. split.
    + by apply (Ho id).
    + intros Hsock. by destruct (Hs _ _ Hsock).
Qed.

Lemma afterDisconnect_known socket c st :
  JsMap.get socket (sockets st) = Some c ->
  let st' := afterDisconnect socket st in
  let rest := Client.sockets (heap st c) ∖ {[socket]} in
  Client.sockets (heap st' c) = rest
  /\ Client.user (heap st' c) = Client.user (heap st c)
  /\ (forall c', c' <> c -> heap st' c' = heap st c')
  /\ (rest = ∅ ->
      clients st' = JsMap.delete (Client.id (heap st c)) (clients st)
      /\ emitted st' = emitted st ++ [IoEmit (SysLeave (Client.serialize (heap st c)))])
  /\ (rest <> ∅ -> clients st' = clients st /\ emitted st' = emitted st).
Proof.
  intros Hget. unfold afterDisconnect. rewrite Hget. simpl.
  case_bool_decide as Hemp; simpl; rewrite decide_True by done; simpl.
  - repeat split; try done. intros c' Hc'. by rewrite decide_False.
  - repeat split; try done. intros c' Hc'. by rewrite decide_False.
Qed.

Lemma afterDisconnect_keeps socket id c st :
  Inv st -> JsMap.get id (clients st) = Some c ->
  JsMap.get socket (sockets st) <> Some c \/ Client.sockets (heap st c) ∖ {[socket]} <> ∅ ->
  let st' := afterDisconnect socket st in
  JsMap.get id (clients st') = Some c
  /\ Client.sockets (heap st' c) = Client.sockets (heap st c) ∖ {[socket]}
  /\ Client.user (heap st' c) = Client.user (heap st c).
Proof.
  intros HI Hreg Hcase st'. subst st'.
  destruct (JsMap.get socket (sockets st)) as [c0|] eqn:Hget.
  - destruct (afterDisconnect_known socket c0 st Hget) as (Hrest & Hu & Hoth & Hemp & Hnemp).
    destruct (inv_sockets _ HI _ _ Hget) as [Hin0 Hreg0].
    destruct (decide (c0 = c)) as [->|Hne].
    + destruct Hcase as [?|Hcase]; [done|].
      destruct (Hnemp Hcase) as [-> _]. done.
    + assert (Client.id (heap st c0) <> id) by (intros Heq; rewrite Heq in Hreg0; congruence).
      rewrite (Hoth c) by done.
      assert (socket ∉ Client.sockets (heap st c)) as Hnotin.
      { intros Hin. pose proof (inv_owned _ HI _ _ _ Hreg Hin). congruence. }
      split; [|split; [set_solver|done]].
      destruct (decide (Client.sockets (heap st c0) ∖ {[socket]} = ∅)) as [He|He].
      * destruct (Hemp He) as [-> _]. rewrite get_delete. by rewrite decide_False.
      * by destruct (Hnemp He) as [-> _].
  - rewrite afterDisconnect_unknown by done.
    assert (socket ∉ Client.sockets (heap st c)) as Hnotin.
    { intros Hin. pose proof (inv_owned _ HI _ _ _ Hreg Hin). congruence. }
    split; [done|]. split; [set_solver|done].
Qed.

Lemma joins_app (l1 l2 : list (@Emit EmbedPayload)) : joins (l1 ++ l2) = joins l1 ++ joins l2.
Proof. apply omap_app. Qed.
Lemma leaves_app (l1 l2 : list (@Emit EmbedPayload)) : leaves (l1 ++ l2) = leaves l1 ++ leaves l2.
Proof. apply omap_app. Qed.

Lemma joins_afterDisconnect socket st :
  joins (emitted (afterDisconnect socket st)) = joins (emitted st).
Proof.
  unfold afterDisconnect. destruct (JsMap.get socket (sockets st)); [|done].
  simpl. destruct (bool_decide _); simpl; [|done].
  rewrite joins_app. simpl. apply app_nil_r.
Qed.

Lemma afterDisconnect_absent socket id st :
  JsMap.get id (clients st) = None ->
  JsMap.get id (clients (afterDisconnect socket st)) = None.
Proof.
  intros H. unfold afterDisconnect. destruct (JsMap.get socket (sockets st)); [|done].
  simpl. destruct (bool_decide _); simpl; [|done].
  rewrite get_delete. by case_decide.
Qed.

Lemma loginId_token request id st :
  decodeToken request = Some (mkToken id) -> loginId request st = id.
Proof. unfold loginId. by intros ->. Qed.

Lemma afterResolve_token request tok st :
  decodeToken request = Some tok -> afterResolve request st = st.
Proof. unfold afterResolve. by intros ->. Qed.

(** A login for an identity that is registered attaches the socket to it. *)
Lemma afterAuthenticate_registered now image socket request id c st :
  decodeToken request = Some (mkToken id) ->
  JsMap.get id (clients st) = Some c ->
  let st' := afterAuthenticate now image socket request st in
  clients st' = clients st
  /\ sockets st' = JsMap.set socket c (sockets st)
  /\ Client.sockets (heap st' c) = {[socket]} ∪ Client.sockets (heap st c)
  /\ Client.user (heap st' c) = Client.user (heap st c)
  /\ users st' = users st
  /\ joins (emitted st') = joins (emitted st)
  /\ leaves (emitted st') = leaves (emitted st).
Proof.
  intros Htok Hreg. unfold afterAuthenticate.
  rewrite (loginId_token _ _ _ Htok), (afterResolve_token _ _ _ Htok), Hreg.
  unfold attach. simpl. rewrite decide_True by done. simpl.
  rewrite joins_app, leaves_app. simpl. rewrite !app_nil_r. done.
Qed.

(** A login for an identity that is not registered creates it. *)
Lemma afterAuthenticate_new now image socket request id st :
  decodeToken request = Some (mkToken id) ->
  JsMap.get id (clients st) = None ->
  let st' := afterAuthenticate now image socket request st in
  let c := nextRef st in
  let user := prepareUser now image socket id request (User.findOne id (users st)) in
  clients st' = JsMap.set id c (clients st)
  /\ sockets st' = JsMap.set socket c (sockets st)
  /\ heap st' c = Client.mk user {[socket]}
  /\ users st' = User.save user (users st)
  /\ joins (emitted st') = joins (emitted st) ++ [Client.serialize (Client.mk user ∅)]
  /\ leaves (emitted st') = leaves (emitted st).
Proof.
  intros Htok Hreg. unfold afterAuthenticate.
  rewrite (loginId_token _ _ _ Htok), (afterResolve_token _ _ _ Htok), Hreg.
  unfold attach. simpl. rewrite !decide_True by done. simpl.
  rewrite !joins_app, !leaves_app. simpl. rewrite !app_nil_r.
  repeat split; try done.
  unfold Client.registerSocket. simpl. f_equal. set_solver.
Qed.

Lemma step_login now image socket request st :
  step st (Login now image socket request)
  = afterAuthenticate now image socket request (afterDisconnect socket st).
Proof. unfold step, exec. by rewrite onClientAuthenticated_run. Qed.

Lemma step_disconnect socket st :
  step st (Disconnect socket) = afterDisconnect socket st.
Proof. unfold step, exec. by rewrite onClientDisconnect_run. Qed.

Lemma run_app (ops1 ops2 : list Op) st :
  run (ops1 ++ ops2) st = run ops2 (run ops1 st).
Proof. apply foldl_app. Qed.

Lemma run_cons (op : Op) (ops : list Op) st :
  run (op :: ops) st = run ops (step st op).
Proof. reflexivity. Qed.

(** Fresh connections logging in for a registered identity all attach
    to it, silently. *)
Lemma connect_registered (tm : string -> N) (im : string -> string) request id c
      (ss : list string) st :
  decodeToken request = Some (mkToken id) ->
  Inv st -> NoDup ss ->
  Forall (fun x => JsMap.get x (sockets st) = None) ss ->
  JsMap.get id (clients st) = Some c ->
  let st' := run (map (fun x => Login (tm x) (im x) x request) ss) st in
  Inv st'
  /\ JsMap.get id (clients st') = Some c
  /\ Client.sockets (heap st' c) = list_to_set ss ∪ Client.sockets (heap st c)
  /\ joins (emitted st') = joins (emitted st)
  /\ leaves (emitted st') = leaves (emitted st).
Proof.
  intros Htok. revert st.
  induction ss as [|x ss IH]; intros st HI Hnd Hfresh Hreg; cbv zeta; cbn [map].
  - split; [done|]. split; [done|]. split; [set_solver|done].
  - apply NoDup_cons in Hnd as [Hx Hnd]. apply Forall_cons in Hfresh as [Hfx Hfresh].
    rewrite run_cons, step_login, afterDisconnect_unknown by done.
    destruct (afterAuthenticate_registered (tm x) (im x) x request id c st Htok Hreg)
      as (Ecl & Eso & Ehe & _ & _ & Ejo & Ele).
    pose proof (Inv_afterAuthenticate (tm x) (im x) x request st HI Hfx) as HI'.
    set (st1 := afterAuthenticate (tm x) (im x) x request st) in *.
    destruct (IH st1) as (HI2 & Hreg2 & Hso2 & Hjo2 & Hle2); try done.
    + rewrite Eso. eapply Forall_impl; [apply Forall_and; split; [apply Hfresh|]|].
      * apply Forall_forall. intros y Hy. exact (fun E : y = x => Hx (eq_ind y (fun z => z ∈ ss) Hy x E)).
      * intros y [Hy Hne]. simpl in *. rewrite get_set. by rewrite decide_False.
    + by rewrite Ecl.
    + split; [done|]. split; [done|]. split; [rewrite Hso2, Ehe; set_solver|].
      split; congruence.
Qed.

(** Disconnecting some, but not all, connections of an identity keeps it
    registered, silently. *)
Lemma disconnect_some id c (ds : list string) st :
  Inv st -> JsMap.get id (clients st) = Some c ->
  Forall (fun x => x ∈ Client.sockets (heap st c)) ds -> NoDup ds ->
  Client.sockets (heap st c) ∖ list_to_set ds <> ∅ ->
  let st' := run (map Disconnect ds) st in
  Inv st'
  /\ JsMap.get id (clients st') = Some c
  /\ Client.sockets (heap st' c) = Client.sockets (heap st c) ∖ list_to_set ds
  /\ emitted st' = emitted st.
Proof.
  revert st. induction ds as [|x ds IH]; intros st HI Hreg Hin Hnd Hne; cbv zeta; cbn [map].
  - split; [done|]. split; [done|]. split; [set_solver|done].
  - apply Forall_cons in Hin as [Hx Hin]. apply NoDup_cons in Hnd as [Hxds Hnd].
    rewrite run_cons, step_disconnect.
    pose proof (inv_owned _ HI _ _ _ Hreg Hx) as Hget.
    assert (Client.sockets (heap st c) ∖ {[x]} <> ∅) as Hrest by set_solver.
    destruct (afterDisconnect_known x c st Hget) as (Hso1 & _ & _ & _ & Hnemp).
    destruct (Hnemp Hrest) as [Ecl Eem].
    pose proof (Inv_afterDisconnect x st HI) as HI1.
    set (st1 := afterDisconnect x st) in *.
    destruct (IH st1) as (HI2 & Hreg2 & Hso2 & Hem2); try done.
    + by rewrite Ecl.
    + rewrite Hso1. eapply Forall_impl; [apply Forall_and; split; [apply Hin|]|].
      * apply Forall_forall. intros y Hy. exact (fun E : y = x => Hxds (eq_ind y (fun z => z ∈ ds) Hy x E)).
      * intros y [Hy Hyx]. simpl in *. set_solver.
    + rewrite Hso1. set_solver.
    + split; [done|]. split; [done|]. split; [rewrite Hso2, Hso1; set_solver|].
      congruence.
Qed.

(** C3. The contract of [onClientDisconnect].  The handler never
    raises and removes the socket from [sockets], leaving the other
    entries alone.  For a socket that [sockets] maps to a client, the
    socket leaves the client's connection set; when that empties the
    set, the client's id is deleted from [clients] and exactly one
    leave event is appended to the trace, and otherwise [clients] and
    the trace are unchanged.  For a socket that [sockets] does not hold,
    the state is unchanged.  Finally, in a consistent state where an
    identity is not registered: after N fresh connections logged in
    with its token and all of them but one disconnected, the identity
    is still registered and no leave was announced; disconnecting the
    last one removes the identity and announces exactly one leave, of
    that identity. *)
Theorem unregister_contract st socket :
  Inv st ->
  let st' := exec (onClientDisconnect socket) st in
  result (onClientDisconnect socket) st = Ok tt
  /\ JsMap.get socket (sockets st') = None
  /\ (forall s, s <> socket -> JsMap.get s (sockets st') = JsMap.get s (sockets st))
  /\ match JsMap.get socket (sockets st) with
     | None => st' = st
     | Some c =>
         let rest := Client.sockets (heap st c) ∖ {[socket]} in
         Client.sockets (heap st' c) = rest
         /\ (rest = ∅ ->
             JsMap.get (Client.id (heap st c)) (clients st') = None
             /\ (forall id, id <> Client.id (heap st c) ->
                            JsMap.get id (clients st') = JsMap.get id (clients st))
             /\ emitted st' = emitted st ++ [IoEmit (SysLeave (Client.serialize (heap st c)))])
         /\ (rest <> ∅ -> clients st' = clients st /\ emitted st' = emitted st)
     end
  /\ (forall (ss : list string) (final : string) (tm : string -> N)
             (im : string -> string) request id,
        NoDup (ss ++ [final]) ->
        Forall (fun x => JsMap.get x (sockets st) = None) (ss ++ [final]) ->
        JsMap.get id (clients st) = None ->
        decodeToken request = Some (mkToken id) ->
        let connect := map (fun x => Login (tm x) (im x) x request) (ss ++ [final]) in
        let st1 := run (connect ++ map Disconnect ss) st in
        let st2 := exec (onClientDisconnect final) st1 in
        is_Some (JsMap.get id (clients st1))
        /\ leaves (emitted st1) = leaves (emitted st)
        /\ JsMap.get id (clients st2) = None
        /\ exists left, emitted st2 = emitted st1 ++ [IoEmit (SysLeave left)] /\ ser_id left = id).
Proof.
  intros HI st'. subst st'. unfold exec, result.
  rewrite onClientDisconnect_run. simpl.
  split; [done|]. split; [apply afterDisconnect_fresh|].
  split. { intros s Hs. rewrite afterDisconnect_sockets, get_delete. by rewrite decide_False. }
  split.
  - destruct (JsMap.get socket (sockets st)) as [c|] eqn:Hget;
      [|by apply afterDisconnect_unknown].
    destruct (afterDisconnect_known socket c st Hget) as (Hso & _ & _ & Hemp & Hnemp).
    cbv zeta. split; [done|]. split; [|done].
    intros He. destruct (Hemp He) as [-> ->]. rewrite get_delete, decide_True by done.
    split; [done|]. split; [|done]. intros id Hid. rewrite get_delete. by rewrite decide_False.
  - intros ss final tm im request id Hnd Hfresh Hnone Htok. cbv zeta.
    rewrite run_app.
    (* the first login creates the identity *)
    destruct (ss ++ [final]) as [|x rest] eqn:Hall; [by destruct ss|].
    cbn [map]. rewrite run_cons, step_login.
    apply NoDup_cons in Hnd as [Hx Hnd]. apply Forall_cons in Hfresh as [Hfx Hfresh].
    rewrite afterDisconnect_unknown by done.
    destruct (afterAuthenticate_new (tm x) (im x) x request id st Htok Hnone)
      as (Ecl & Eso & Ehe & _ & _ & Ele).
    pose proof (Inv_afterAuthenticate (tm x) (im x) x request st HI Hfx) as HI1.
    set (st1 := afterAuthenticate (tm x) (im x) x request st) in *.
    set (c := nextRef st) in *.
    assert (JsMap.get id (clients st1) = Some c) as Hreg1
      by (rewrite Ecl, get_set; by rewrite decide_True).
    (* the others attach to it *)
    destruct (connect_registered tm im request id c rest st1 Htok HI1 Hnd)
      as (HI2 & Hreg2 & Hso2 & _ & Hle2); [|done|].
    { rewrite Eso. rewrite Forall_forall in Hfresh |- *. intros y Hy.
      rewrite get_set, decide_False; [by apply Hfresh|]. by intros ->. }
    set (st2 := run (map (fun x => Login (tm x) (im x) x request) rest) st1) in *.
    assert (Client.sockets (heap st2 c) = list_to_set (ss ++ [final])) as Hset.
    { rewrite Hso2, Ehe, Hall. simpl. set_solver. }
    assert (NoDup (ss ++ [final])) as Hnd' by (rewrite Hall; by apply NoDup_cons).
    apply NoDup_app in Hnd' as (Hndss & Hdisj & _).
    assert (final ∉ ss) as Hfinal by (intros Hin; apply (Hdisj _ Hin); set_solver).
    (* all but the last disconnect *)
    destruct (disconnect_some id c ss st2 HI2 Hreg2) as (HI3 & Hreg3 & Hso3 & Hem3).
    { apply Forall_forall. intros y Hy. rewrite Hset. set_solver. }
    { done. }
    { rewrite Hset. apply (non_empty_inhabited_L final).
      rewrite list_to_set_app_L. set_solver. }
    set (st3 := run (map Disconnect ss) st2) in *.
    split; [by eexists|]. split; [by rewrite Hem3, Hle2|].
    (* the last one *)
    assert (Client.sockets (heap st3 c) = {[final]}) as Hlast.
    { rewrite Hso3, Hset, list_to_set_app_L. set_solver. }
    assert (JsMap.get final (sockets st3) = Some c) as Hget
      by (apply (inv_owned _ HI3 id); [done|rewrite Hlast; set_solver]).
    destruct (afterDisconnect_known final c st3 Hget) as (_ & _ & _ & Hemp & _).
    destruct Hemp as [Ecl4 Eem4]; [rewrite Hlast; set_solver|].
    destruct (inv_clients _ HI3 _ _ Hreg3) as (_ & Hid & _).
    rewrite onClientDisconnect_run. cbn [snd].
    rewrite Ecl4, Eem4, Hid, get_delete, decide_True by done.
    split; [done|]. eexists. split; [done|]. apply Hid.
Qed.

Lemma disconnectIfRegistered_run socket st :
  disconnectIfRegistered socket st = (Ok tt, afterDisconnect socket st).
Proof.
  unfold disconnectIfRegistered, mbind, M_bind, gets, mret, M_ret.
  destruct (JsMap.has socket (sockets st)) eqn:Hhas.
  - apply onClientDisconnect_run.
  - apply has_false in Hhas. by rewrite afterDisconnect_unknown.
Qed.

Lemma exec_login now image socket request st :
  exec (onClientAuthenticated now image socket request) st
  = afterAuthenticate now image socket request (afterDisconnect socket st).
Proof. unfold exec. by rewrite onClientAuthenticated_run. Qed.

Lemma exec_disconnectIfRegistered socket st :
  exec (disconnectIfRegistered socket) st = afterDisconnect socket st.
Proof. unfold exec. by rewrite disconnectIfRegistered_run. Qed.

Lemma exec_disconnect socket st :
  exec (onClientDisconnect socket) st = afterDisconnect socket st.
Proof. unfold exec. by rewrite onClientDisconnect_run. Qed.

(** What a login adds to the joins of the trace. *)
Lemma afterAuthenticate_joins now image socket request st :
  joins (emitted (afterAuthenticate now image socket request st))
  = joins (emitted st) ++
    match JsMap.get (loginId request st) (clients st) with
    | Some _ => []
    | None =>
        [Client.serialize
           (Client.mk (prepareUser now image socket (loginId request st) request
                                   (User.findOne (loginId request st) (users st))) ∅)]
    end.
Proof.
  unfold afterAuthenticate.
  destruct (afterResolve_fields request st) as (Ecl & Eso & Ehe & Enr & Eus & Eem & Erl).
  rewrite Ecl, Eus.
  destruct (JsMap.get (loginId request st) (clients st)) as [c|]; unfold attach; simpl.
  - rewrite joins_app, Eem. done.
  - rewrite !decide_True by done. rewrite !joins_app, Eem. simpl.
    by rewrite app_nil_r.
Qed.

Lemma decodeToken_ext (r1 r2 : ClientAuthRequest) :
  req_token r1 = req_token r2 -> decodeToken r1 = decodeToken r2.
Proof. unfold decodeToken. by intros ->. Qed.

(** C2. Join is announced once.  In a consistent state where an
    identity is not registered, two different sockets log in one after
    the other with the same valid token of that identity: the first
    login announces exactly one join, of that identity, and the second
    announces none.  In general a login announces one join when it
    finds its identity absent from [clients], and none otherwise. *)
Theorem join_once st id now1 image1 s1 req1 now2 image2 s2 req2 :
  Inv st ->
  JsMap.get id (clients st) = None ->
  req_token req1 = req_token req2 ->
  decodeToken req1 = Some (mkToken id) ->
  s1 <> s2 ->
  let st1 := exec (onClientAuthenticated now1 image1 s1 req1) st in
  let st2 := exec (onClientAuthenticated now2 image2 s2 req2) st1 in
  (exists joined, joins (emitted st1) = joins (emitted st) ++ [joined]
                  /\ ser_id joined = id)
  /\ joins (emitted st2) = joins (emitted st1)
  /\ (forall (st0 : State RateLimit EmbedPayload) now image socket request,
        let st0' := exec (onClientAuthenticated now image socket request) st0 in
        if isNewIdentity socket request st0
        then exists joined, joins (emitted st0') = joins (emitted st0) ++ [joined]
        else joins (emitted st0') = joins (emitted st0)).
Proof.
  intros HI Hnone Hsame Htok Hne. cbv zeta.
  assert (decodeToken req2 = Some (mkToken id)) as Htok2
    by (by rewrite <- (decodeToken_ext req1 req2)).
  rewrite !exec_login.
  pose proof (Inv_afterDisconnect s1 st HI) as HI0.
  pose proof (afterDisconnect_absent s1 id st Hnone) as Hnone0.
  set (st0 := afterDisconnect s1 st) in *.
  destruct (afterAuthenticate_new now1 image1 s1 req1 id st0 Htok Hnone0)
    as (Ecl & Eso & Ehe & _ & Ejo & _).
  pose proof (Inv_afterAuthenticate now1 image1 s1 req1 st0 HI0 (afterDisconnect_fresh s1 st)) as HI1.
  set (st1 := afterAuthenticate now1 image1 s1 req1 st0) in *.
  split; [|split].
  - eexists. split.
    + rewrite Ejo. unfold st0. by rewrite joins_afterDisconnect.
    + unfold Client.serialize. cbn [ser_id Client.user].
      apply prepareUser_id. intros u. apply findOne_id.
  - assert (JsMap.get id (clients st1) = Some (nextRef st0)) as Hreg1
      by (rewrite Ecl, get_set; by rewrite decide_True).
    destruct (afterDisconnect_keeps s2 id (nextRef st0) st1 HI1 Hreg1) as (Hreg2 & _).
    { right. rewrite Ehe. simpl. apply (non_empty_inhabited_L s1). set_solver. }
    rewrite afterAuthenticate_joins, (loginId_token _ _ _ Htok2), Hreg2, app_nil_r.
    apply joins_afterDisconnect.
  - intros st' now image socket request. cbv zeta. unfold isNewIdentity.
    rewrite exec_login, exec_disconnectIfRegistered, afterAuthenticate_joins.
    rewrite joins_afterDisconnect.
    destruct (JsMap.get (loginId request (afterDisconnect socket st')) _);
      cbn iota; [by rewrite app_nil_r|by eexists].
Qed.




Lemma findOne_save (u : User.t) (db : list User.t) :
  User.findOne (User.id u) (User.save u db) = Some u.
Proof.
  unfold User.findOne. induction db as [|u' db IH]; simpl.
  - by rewrite bool_decide_eq_true_2.
  - destruct (decide (User.id u' = User.id u)) as [Heq|Hne]; simpl.
    + by rewrite bool_decide_eq_true_2.
    + by rewrite bool_decide_eq_false_2.
Qed.

(** C9, as amended.  A login whose token names an identity mutates
    the identity's record only when the identity is not registered at
    that moment.  When the identity is registered, the login leaves its
    user record and the store unchanged.  When it is not registered but
    the store has its record, the new client's record has the login
    time as [lastLogin], the request's bot flag, the stored avatar, and
    as name the normalized override when one is supplied and
    normalizes, the stored name otherwise; and that record is saved to
    the store. *)
Theorem reconnect_mutates_absent_identity_only st now image socket request id :
  decodeToken request = Some (mkToken id) ->
  let st0 := exec (disconnectIfRegistered socket) st in
  let st' := exec (onClientAuthenticated now image socket request) st in
  match JsMap.get id (clients st0) with
  | Some c =>
      JsMap.get id (clients st') = Some c
      /\ Client.user (heap st' c) = Client.user (heap st0 c)
      /\ users st' = users st0
  | None =>
      forall u, User.findOne id (users st0) = Some u ->
      exists c, JsMap.get id (clients st') = Some c
        /\ User.lastLogin (Client.user (heap st' c)) = now
        /\ User.bot (Client.user (heap st' c)) = req_bot request
        /\ User.avatar (Client.user (heap st' c)) = User.avatar u
        /\ User.name (Client.user (heap st' c))
           = match req_name request with
             | Some n => if truthy n then default (User.name u) (normalizeName n)
                         else User.name u
             | None => User.name u
             end
        /\ User.findOne id (users st') = Some (Client.user (heap st' c))
  end.
Proof.
  intros Htok. cbv zeta. rewrite exec_login, exec_disconnectIfRegistered.
  set (st0 := afterDisconnect socket st).
  destruct (JsMap.get id (clients st0)) as [c|] eqn:Hreg.
  - destruct (afterAuthenticate_registered now image socket request id c st0 Htok Hreg)
      as (Ecl & _ & _ & Eus & Edb & _).
    by rewrite Ecl.
  - intros u Hu.
    destruct (afterAuthenticate_new now image socket request id st0 Htok Hreg)
      as (Ecl & _ & Ehe & Edb & _).
    exists (nextRef st0). rewrite Ecl, Ehe, Edb, get_set, decide_True by done.
    rewrite Hu. simpl. repeat split.
    assert (User.id (prepareUser now image socket id request (Some u)) = id) as Hid
      by (apply prepareUser_id; intros ? [= <-]; by apply findOne_id in Hu).
    rewrite <- Hid at 1. apply findOne_save.
Qed.

Lemma prepareUser_ext now image socket id (r1 r2 : ClientAuthRequest) found :
  req_name r1 = req_name r2 -> req_bot r1 = req_bot r2 ->
  prepareUser now image socket id r1 found = prepareUser now image socket id r2 found.
Proof. unfold prepareUser. by intros -> ->. Qed.

(** A login whose token does not decode computes exactly what it
    computes for the same request without a token and does not raise;
    it consumes the next id of the generator, and the socket ends up
    registered under that id.  When that id is not registered, the
    identity is created by this login with the socket as its only
    connection, its join is announced, and with no stored record and no
    name override its name is the placeholder derived from the socket
    id. *)
Lemma invalid_token_login st now image socket request t :
  req_token request = Some t ->
  decode t = None ->
  let anonymous := mkRequest None (req_name request) (req_bot request) in
  let st0 := exec (disconnectIfRegistered socket) st in
  let st' := exec (onClientAuthenticated now image socket request) st in
  let id := pretty (snowFlake st) in
  onClientAuthenticated now image socket request st
  = onClientAuthenticated now image socket anonymous st
  /\ result (onClientAuthenticated now image socket request) st = Ok tt
  /\ snowFlake st' = N.succ (snowFlake st)
  /\ (exists c, JsMap.get socket (sockets st') = Some c
                /\ JsMap.get id (clients st') = Some c
                /\ socket ∈ Client.sockets (heap st' c))
  /\ (JsMap.get id (clients st0) = None ->
      let c := nextRef st0 in
      JsMap.get id (clients st') = Some c
      /\ Client.id (heap st' c) = id
      /\ Client.sockets (heap st' c) = {[socket]}
      /\ joins (emitted st') = joins (emitted st) ++ [Client.serialize (heap st' c)]
      /\ (User.findOne id (users st) = None -> req_name request = None ->
          Client.name (heap st' c) = "anon-" +:+ substr 0 6 socket)).
Proof.
  intros Hreq Hdec. cbv zeta.
  assert (decodeToken request = None) as Htok.
  { unfold decodeToken. rewrite Hreq, Hdec. by destruct (truthy t). }
  unfold result. rewrite exec_login, exec_disconnectIfRegistered, !onClientAuthenticated_run.
  set (st0 := afterDisconnect socket st).
  assert (snowFlake st0 = snowFlake st /\ users st0 = users st) as [Esn Eus].
  { unfold st0, afterDisconnect. destruct (JsMap.get socket (sockets st)); [|done].
    simpl. by destruct (bool_decide _). }
  cbn [fst]. split.
  { f_equal. unfold afterAuthenticate, loginId, afterResolve. rewrite Htok. simpl.
    destruct (JsMap.get _ _); [done|]. cbv zeta.
    by rewrite (prepareUser_ext _ _ _ _ request (mkRequest None (req_name request) (req_bot request))). }
  split; [done|].
  unfold afterAuthenticate, loginId, afterResolve. rewrite Htok, Esn. simpl.
  destruct (JsMap.get (pretty (snowFlake st)) (clients st0)) as [c|] eqn:Hreg;
    unfold attach; simpl.
  - split; [done|]. split; [|done].
    exists c. rewrite get_set, !decide_True by done. simpl. split; [done|]. split; [done|set_solver].
  - split; [done|]. rewrite !get_set, !decide_True by done. simpl.
    split.
    { exists (nextRef st0). rewrite decide_True by done. simpl.
      split; [done|]. split; [done|set_solver]. }
    intros _. rewrite !joins_app. simpl.
    rewrite !app_nil_r, (joins_afterDisconnect socket st : joins (emitted st0) = _).
    unfold Client.id, Client.name, Client.registerSocket. simpl.
    split; [done|].
    split. { destruct (User.findOne _ (users st0)) eqn:Hf; [by apply findOne_id in Hf|done]. }
    split; [set_solver|]. split; [done|].
    rewrite Eus. by intros -> ->.
Qed.

(** [getMentions] without its guard: the empty text has no mention
    either way. *)
Lemma getMentions_unfold content st :
  getMentions content st
  = concat (map (idsNamed (registry st))
                (map (substr_from 1) (List.filter (startsWith "@") (split " " content)))).
Proof.
  unfold getMentions. destruct content as [|a content]; [done|]. reflexivity.
Qed.

Lemma getMentions_resolve content st :
  getMentions content st = resolveMentions is_space (registry st) content.
Proof.
  rewrite getMentions_unfold. unfold resolveMentions.
  rewrite tokenize_space_split, omap_stripMarker_truthy, omap_stripMarker.
  apply concat_bind.
Qed.

Lemma getMentions_append a b st :
  getMentions (a +:+ String " " b) st = getMentions a st ++ getMentions b st.
Proof.
  rewrite !getMentions_unfold, split_append.
  by rewrite List.filter_app, !map_app, concat_app.
Qed.

Lemma getMentions_single name st :
  Forall (fun a => a <> " "%char) (list_ascii_of_string name) ->
  getMentions (String "@" name) st = idsNamed (registry st) name
  /\ (forall a, a <> "@"%char -> a <> " "%char -> getMentions (String a name) st = []).
Proof.
  intros Hname. split.
  - rewrite getMentions_unfold, split_no_separator by (by constructor).
    cbn [List.filter]. rewrite startsWith_cons, bool_decide_eq_true_2 by done.
    cbn [map concat]. by rewrite substr_from_1, app_nil_r.
  - intros a Ha Hsp. rewrite getMentions_unfold, split_no_separator by (by constructor).
    cbn [List.filter]. rewrite startsWith_cons, bool_decide_eq_false_2; [done|congruence].
Qed.

(** C5. What the typing and message handlers do for a socket that
    [sockets] does not hold: [onClientStartTyping] raises a [TypeError]
    (nothing is emitted); [onClientMessageReceived], for a text that no
    command consumes and that the rate limiter allows, raises a
    [TypeError] as well, after the rate limiter has counted the
    message. *)
Theorem unknown_connection_throws st socket :
  JsMap.get socket (sockets st) = None ->
  onClientStartTyping socket st = (Throw TypeError, st)
  /\ forall now message st1 rl,
       handle None message st = (Ok false, st1) ->
       check (messageRateLimit st1) socket now = (true, rl) ->
       onClientMessageReceived now socket message st
       = (Throw TypeError, set_messageRateLimit rl st1).
Proof.
  intros Hget. split.
  - unfold onClientStartTyping, mbind, M_bind, gets, throw. by rewrite Hget.
  - intros now message st1 rl Hh Hc.
    unfold onClientMessageReceived, mbind, M_bind, gets, throw, mret, M_ret.
    rewrite Hget, Hh, Hc. reflexivity.
Qed.

(** C6. Order of the message path.  The text goes to the command
    manager first.  When a command consumes it, the handler returns in
    the state the command left: the rate limiter is not asked and
    nothing else is emitted.  When no command consumes it, the rate
    limiter is asked, on the state the command manager left; when it
    denies, the handler returns without raising, having changed only
    the rate limiter's state. *)
Theorem command_short_circuit st now socket message consumed st1 :
  handle (JsMap.get socket (sockets st)) message st = (Ok consumed, st1) ->
  (consumed = true ->
   onClientMessageReceived now socket message st = (Ok tt, st1))
  /\ (consumed = false ->
      forall rl, check (messageRateLimit st1) socket now = (false, rl) ->
      onClientMessageReceived now socket message st
      = (Ok tt, set_messageRateLimit rl st1))
  /\ (consumed = false ->
      messageRateLimit (exec (onClientMessageReceived now socket message) st)
      = snd (check (messageRateLimit st1) socket now)).
Proof.
  intros Hh.
  unfold exec, onClientMessageReceived, sendMessage, nextId, mbind, M_bind, gets,
    throw, mret, M_ret, io_emit, modify.
  rewrite Hh. split; [by intros ->|]. split.
  - intros -> rl Hc. by rewrite Hc.
  - intros ->. destruct (check (messageRateLimit st1) socket now) as [ok rl].
    destruct ok; simpl; [|done]. by destruct (JsMap.get socket (sockets st)).
Qed.

(** C7, as amended.  A message of more than 256 units from a
    registered socket, not consumed by a command and allowed by the
    rate limiter, is broadcast without error: the text is cut to its
    first 256 units, a prefix of length exactly 256, and the content of
    the one event emitted is the escaped form of that prefix, so it has
    length 256 whenever escaping leaves the prefix unchanged. *)
Theorem long_message_truncated_then_escaped st now socket message c st1 rl :
  JsMap.get socket (sockets st) = Some c ->
  handle (Some c) message st = (Ok false, st1) ->
  check (messageRateLimit st1) socket now = (true, rl) ->
  (256 < String.length message)%nat ->
  let st' := exec (onClientMessageReceived now socket message) st in
  let cut := substr 0 256 message in
  result (onClientMessageReceived now socket message) st = Ok tt
  /\ String.length cut = 256
  /\ emitted st'
     = emitted st1 ++
       [IoEmit (UsrMsg (pretty (snowFlake st1)) (Client.id (heap st1 c))
                       (escapeHtml cut) (validateEmbed None)
                       (getMentions cut st1))]
  /\ (escapeHtml cut = cut -> String.length (escapeHtml cut) = 256).
Proof.
  intros Hget Hh Hc Hlen. cbv zeta.
  assert (String.length (substr 0 256 message) = 256) as Hcut
    by (apply substr_length; lia).
  unfold exec, result, onClientMessageReceived, sendMessage, nextId, mbind, M_bind,
    gets, throw, mret, M_ret, io_emit, modify.
  rewrite Hget, Hh, Hc. cbn [negb].
  apply Nat.ltb_lt in Hlen. rewrite Hlen. cbn [fst snd].
  split; [done|]. split; [done|]. split; [done|]. by intros ->.
Qed.

End Properties.

(** ** The properties on the example states *)

Lemma Inv_demo_alice : Inv demo_alice.
Proof. apply Inv_run, Inv_init. Qed.

Lemma Inv_demo_alice_bob : Inv demo_alice_bob.
Proof. apply Inv_run, Inv_demo_alice. Qed.

(** C8, as amended.  [getMentions] is the resolver of the
    specification with the space character as the only separator:
    the text is cut at spaces, the pieces beginning with the marker are
    kept without it, and each name gives the ids of the registered
    clients with exactly that name, in registry order.  The empty text
    has no mention; the mentions of two texts joined by a space are
    those of the first followed by those of the second, so order and
    repetitions are kept; a single marked name without space resolves
    to the ids of that name; and the example text against Alice and
    Bob resolves to Alice, Bob, Alice. *)
Theorem mentions_resolved_on_spaces :
  (forall RateLimit EmbedPayload (st : State RateLimit EmbedPayload) content,
     getMentions content st = resolveMentions is_space (registry st) content)
  /\ (forall RateLimit EmbedPayload (st : State RateLimit EmbedPayload),
        getMentions EmptyString st = [])
  /\ (forall RateLimit EmbedPayload (st : State RateLimit EmbedPayload) a b,
        getMentions (a +:+ " " +:+ b) st = getMentions a st ++ getMentions b st)
  /\ (forall RateLimit EmbedPayload (st : State RateLimit EmbedPayload) name,
        Forall (fun a => a <> " "%char) (list_ascii_of_string name) ->
        getMentions ("@" +:+ name) st = idsNamed (registry st) name)
  /\ map (fun c => (Client.name c, Client.id c)) (registry demo_alice_bob)
     = [("Alice", "u1"); ("Bob", "u2")]
  /\ getMentions "hello @Alice and @Bob and @Alice" demo_alice_bob
     = ["u1"; "u2"; "u1"].
Proof.
  split; [intros; apply getMentions_resolve|].
  split; [done|].
  split; [intros; apply getMentions_append|].
  split; [intros ???? H; apply (getMentions_single name st H)|].
  split; vm_compute; reflexivity.
Qed.

(** C8, counterexample.  A mention that follows a line feed is not
    found by [getMentions], while tokenizing on whitespace finds it. *)
Lemma mention_after_line_feed_not_resolved :
  let text := "hello" +:+ String line_feed "@Alice" in
  getMentions text demo_alice_bob = []
  /\ resolveMentions is_whitespace (registry demo_alice_bob) text = ["u1"].
Proof. split; vm_compute; reflexivity. Qed.

(** C7, counterexample.  A message of 300 angle brackets from a
    registered socket is broadcast with a content of 1024 units: the
    256 that the cut keeps, each escaped to four. *)
Lemma broadcast_content_longer_than_cut :
  let message := repeat_char 300 "<" in
  String.length message = 300
  /\ exists id user content embed mentions,
       last (emitted (exec (onClientMessageReceived 5 "socket-alice" message) demo_alice))
       = Some (IoEmit (UsrMsg id user content embed mentions))
       /\ String.length content = 1024.
Proof.
  split; [vm_compute; reflexivity|].
  eexists _, _, _, _, _. split; vm_compute; reflexivity.
Qed.

(** C9, counterexample.  Alice is registered; a second socket logs
    in later with her token and a name override that normalizes.  The
    socket is attached to her client, whose name and login time stay
    as they were. *)
Lemma reconnect_keeps_registered_record :
  let request := demo_request (Some "signed:u1") (Some "Bob") in
  let st' := exec (onClientAuthenticated 2 "dog.png" "socket-bob" request) demo_alice in
  decodeToken request = Some (mkToken "u1")
  /\ normalizeName "Bob" = Some "Bob"
  /\ JsMap.get "u1" (clients demo_alice) = Some 0
  /\ JsMap.get "u1" (clients st') = Some 0
  /\ JsMap.get "socket-bob" (sockets st') = Some 0
  /\ User.name (Client.user (heap st' 0)) = "Alice"
  /\ User.lastLogin (Client.user (heap st' 0)) = 1%N.
Proof. repeat split; vm_compute; reflexivity. Qed.

(** C2 on the example services: two sockets, one token. *)
Lemma join_once_demo :
  let request := demo_request (Some "signed:u1") None in
  let st1 := exec (onClientAuthenticated 1 "cat.png" "socket-a" request) demo_init in
  let st2 := exec (onClientAuthenticated 2 "dog.png" "socket-b" request) st1 in
  (exists joined, joins (emitted st1) = joins (emitted demo_init) ++ [joined]
                  /\ ser_id joined = "u1")
  /\ joins (emitted st2) = joins (emitted st1).
Proof.
  pose proof (join_once demo_init "u1" 1%N "cat.png" "socket-a"
                (demo_request (Some "signed:u1") None)
                2%N "dog.png" "socket-b" (demo_request (Some "signed:u1") None)
                (Inv_init _ _ _) eq_refl eq_refl eq_refl ltac:(discriminate)) as H.
  exact (conj (proj1 H) (proj1 (proj2 H))).
Defined.

(** C3 on the example state: Bob's only socket disconnects. *)
Lemma unregister_contract_demo :
  result (onClientDisconnect "socket-bob") demo_alice_bob = Ok tt
  /\ JsMap.get "socket-bob" (sockets (exec (onClientDisconnect "socket-bob") demo_alice_bob))
     = None.
Proof.
  pose proof (unregister_contract demo_alice_bob "socket-bob" Inv_demo_alice_bob) as H.
  exact (conj (proj1 H) (proj1 (proj2 H))).
Defined.

(** C5 on the example state: Alice's socket logs in again; while that
    login waits for the store, the socket reports typing. *)
Lemma unknown_connection_demo :
  onClientStartTyping "socket-alice" demo_relogin_pending
  = (Throw TypeError, demo_relogin_pending).
Proof.
  exact (proj1 (unknown_connection_throws demo_relogin_pending "socket-alice" eq_refl)).
Defined.

(** C6 on the example state: the rename command consumes the text. *)
Lemma command_short_circuit_demo :
  onClientMessageReceived 5 "socket-alice" "/nick Neo" demo_alice
  = (Ok tt, exec (handle (Some 0) "/nick Neo") demo_alice).
Proof.
  exact (proj1 (command_short_circuit demo_alice 5%N "socket-alice" "/nick Neo" true
                  (exec (handle (Some 0) "/nick Neo") demo_alice) eq_refl) eq_refl).
Defined.

(** C7 on the example state: 300 letters are broadcast as 256. *)
Lemma long_message_demo :
  let message := repeat_char 300 "a" in
  let st' := exec (onClientMessageReceived 5 "socket-alice" message) demo_alice in
  emitted st'
  = emitted demo_alice ++
    [IoEmit (UsrMsg "1000" "u1" (repeat_char 256 "a") None [])]
  /\ String.length (repeat_char 256 "a") = 256.
Proof.
  pose proof (long_message_truncated_then_escaped demo_alice 5%N "socket-alice"
                (repeat_char 300 "a") 0 demo_alice
                (snd (check (messageRateLimit demo_alice) "socket-alice" 5%N))
                eq_refl eq_refl eq_refl) as H.
  assert (256 < String.length (repeat_char 300 "a")) as Hlen by (vm_compute; lia).
  specialize (H Hlen). destruct H as (_ & Hcut & Hem & _).
  split; [exact Hem|exact Hcut].
Defined.

(** C9 on the example state: the registered record is kept. *)
Lemma reconnect_demo :
  let request := demo_request (Some "signed:u1") (Some "Bob") in
  let st' := exec (onClientAuthenticated 2 "dog.png" "socket-bob" request) demo_alice in
  Client.user (heap st' 0) = Client.user (heap demo_alice 0).
Proof.
  exact (proj1 (proj2 (reconnect_mutates_absent_identity_only demo_alice 2%N "dog.png"
           "socket-bob" (demo_request (Some "signed:u1") (Some "Bob")) "u1" eq_refl))).
Defined.


(** ** More facts about [JsMap] *)
Module JsMapOrder.
Section facts.
Context {V : Type}.
Implicit Types (k : string) (v : V) (m : JsMap.t V).

Lemma keys_set_absent k v m :
  JsMap.get k m = None -> JsMap.set k v m = m ++ [(k, v)].
Proof.
  induction m as [|[k0 v0] m IH]; simpl; [done|].
  destruct (decide (k = k0)); [done|]. intros H. by rewrite IH.
Qed.

Lemma get_None_keys k m : JsMap.get k m = None <-> k ∉ JsMap.keys m.
Proof.
  unfold JsMap.keys. induction m as [|[k0 v0] m IH]; simpl.
  - split; [intros _; apply not_elem_of_nil|done].
  - destruct (decide (k = k0)) as [->|Hne].
    + split; [done|]. intros H. exfalso. apply H. by left.
    + rewrite IH, not_elem_of_cons. naive_solver.
Qed.

Lemma NoDup_keys_set k v m :
  NoDup (JsMap.keys m) -> NoDup (JsMap.keys (JsMap.set k v m)).
Proof.
  unfold JsMap.keys. induction m as [|[k0 v0] m IH]; simpl.
  - intros _. apply NoDup_singleton.
  - intros [Hk0 Hnd]%NoDup_cons. destruct (decide (k = k0)) as [->|Hne]; simpl.
    + by apply NoDup_cons.
    + apply NoDup_cons. split; [|by apply IH].
      intros Hin. apply Hk0. clear IH Hnd Hk0.
      induction m as [|[k1 v1] m IH]; simpl in *.
      * apply list_elem_of_singleton in Hin. congruence.
      * destruct (decide (k = k1)); simpl in *; [by subst|].
        apply elem_of_cons in Hin as [->|Hin]; [by left|right; by apply IH].
Qed.

Lemma keys_delete_subseteq k m x :
  x ∈ JsMap.keys (JsMap.delete k m) -> x ∈ JsMap.keys m.
Proof.
  unfold JsMap.keys. induction m as [|[k0 v0] m IH]; simpl; [done|].
  destruct (decide (k = k0)); simpl.
  - intros H. right. by apply IH.
  - intros [->|H]%elem_of_cons; [by left|right; by apply IH].
Qed.

Lemma NoDup_keys_delete k m :
  NoDup (JsMap.keys m) -> NoDup (JsMap.keys (JsMap.delete k m)).
Proof.
  unfold JsMap.keys. induction m as [|[k0 v0] m IH]; simpl; [done|].
  intros [Hk0 Hnd]%NoDup_cons. destruct (decide (k = k0)); simpl; [by apply IH|].
  apply NoDup_cons. split; [|by apply IH].
  intros Hin. apply Hk0. by apply (keys_delete_subseteq k).
Qed.

Lemma length_delete_present k v m :
  NoDup (JsMap.keys m) -> JsMap.get k m = Some v ->
  S (length (JsMap.delete k m)) = length m.
Proof.
  unfold JsMap.keys. induction m as [|[k0 v0] m IH]; simpl; [done|].
  intros [Hk0 Hnd]%NoDup_cons. destruct (decide (k = k0)) as [->|Hne]; simpl.
  - intros _. f_equal. f_equal. apply delete_absent. by apply get_None_keys.
  - intros H. f_equal. by apply IH.
Qed.

Lemma delete_set_absent k v m :
  JsMap.get k m = None -> JsMap.delete k (JsMap.set k v m) = m.
Proof.
  induction m as [|[k0 v0] m IH]; simpl.
  - by rewrite decide_True.
  - destruct (decide (k = k0)); [done|]. intros H. simpl.
    rewrite decide_False by done. by rewrite IH.
Qed.

Lemma get_Some_entry k v m : JsMap.get k m = Some v -> (k, v) ∈ m.
Proof.
  induction m as [|[k0 v0] m IH]; simpl; [done|].
  destruct (decide (k = k0)) as [->|Hne].
  - intros [= ->]. by left.
  - intros H. right. by apply IH.
Qed.

Lemma entry_get k v m : NoDup (JsMap.keys m) -> (k, v) ∈ m -> JsMap.get k m = Some v.
Proof.
  unfold JsMap.keys. induction m as [|[k0 v0] m IH]; simpl.
  - intros _ H. by apply elem_of_nil in H.
  - intros [Hk0 Hnd]%NoDup_cons [[= -> ->]|Hin]%elem_of_cons.
    + by rewrite decide_True.
    + destruct (decide (k = k0)) as [->|Hne]; [|by apply IH].
      exfalso. apply Hk0. apply list_elem_of_In.
      apply (List.in_map fst m (k0, v)). by apply list_elem_of_In.
Qed.
End facts.
End JsMapOrder.

Import JsMapOrder.

(** ** Further properties of the manager *)

Section MoreProperties.
Context {RateLimit EmbedPayload : Type} {services : Services RateLimit EmbedPayload}.
Implicit Types (st : State RateLimit EmbedPayload) (c : Ref) (s socket id : string).

Lemma registry_member id c st :
  JsMap.get id (clients st) = Some c -> heap st c ∈ registry st.
Proof.
  intros Hg. apply get_Some_entry in Hg. unfold registry, JsMap.values.
  apply list_elem_of_In, List.in_map, (List.in_map snd _ (id, c)).
  by apply list_elem_of_In.
Qed.

(** What the rest of a login does, whatever the request. *)
Lemma afterAuthenticate_trace now image socket request st :
  let st' := afterAuthenticate now image socket request st in
  exists c,
    JsMap.get socket (sockets st') = Some c
    /\ JsMap.get (loginId request st) (clients st') = Some c
    /\ emitted st'
       = emitted st ++
         SocketEmit socket
           (Ready (Client.serialize (heap st' c))
                  (map Client.serialize (registry st'))
                  (createToken (Client.id (heap st' c))))
         :: match JsMap.get (loginId request st) (clients st) with
            | Some _ => []
            | None => [IoEmit (SysJoin (Client.serialize (heap st' c)))]
            end.
Proof.
  cbv zeta. unfold afterAuthenticate.
  destruct (afterResolve_fields request st) as (Ecl & Eso & Ehe & Enr & Eus & Eem & Erl).
  rewrite Ecl.
  destruct (JsMap.get (loginId request st) (clients st)) as [c|] eqn:Hreg;
    unfold attach, readyEvent, registry; simpl.
  - exists c. rewrite get_set, decide_True by done. rewrite Ecl, Eem.
    split; [done|]. split; [done|]. by rewrite List.map_map.
  - exists (nextRef (afterResolve request st)).
    rewrite !get_set, !decide_True by done. rewrite Eem.
    split; [done|]. split; [done|]. rewrite <- app_assoc. simpl.
    by rewrite List.map_map.
Qed.

(** X1. A login tells the socket who it is: after what the disconnect
    of a registered socket emitted, the login emits [ready] to the
    socket, with the client the socket is now registered to, the list of
    all registered clients, in which that client occurs, and a token
    made for that client's id; a join of that same client follows when
    the identity is new, and nothing else does. *)
Theorem ready_names_the_client_among_the_members st now image socket request :
  let st0 := exec (disconnectIfRegistered socket) st in
  let st' := exec (onClientAuthenticated now image socket request) st in
  exists c,
    JsMap.get socket (sockets st') = Some c
    /\ let user := Client.serialize (heap st' c) in
       let members := map Client.serialize (registry st') in
       user ∈ members
       /\ emitted st'
          = emitted st0 ++
            SocketEmit socket (Ready user members (createToken (ser_id user)))
            :: (if isNewIdentity socket request st then [IoEmit (SysJoin user)] else []).
Proof.
  cbv zeta. rewrite exec_login, exec_disconnectIfRegistered.
  destruct (afterAuthenticate_trace now image socket request (afterDisconnect socket st))
    as (c & Hsock & Hreg & Hem).
  exists c. split; [done|]. split.
  - apply list_elem_of_In, List.in_map, list_elem_of_In. by eapply registry_member.
  - rewrite Hem. unfold isNewIdentity. rewrite exec_disconnectIfRegistered.
    by destruct (JsMap.get (loginId request (afterDisconnect socket st))
                           (clients (afterDisconnect socket st))).
Qed.

(** X4. Disconnecting a socket a second time changes nothing and does
    not raise. *)
Theorem disconnect_twice_is_disconnect_once st socket :
  onClientDisconnect socket (exec (onClientDisconnect socket) st)
  = (Ok tt, exec (onClientDisconnect socket) st).
Proof.
  rewrite exec_disconnect, onClientDisconnect_run.
  by rewrite (afterDisconnect_unknown socket _ (afterDisconnect_fresh socket st)).
Qed.

(** X3. A fresh socket that logs in as a new identity and disconnects
    leaves [clients] and [sockets] as they were, and the trace gains
    its ready, the join and the leave of that identity, in this order. *)
Theorem connect_then_disconnect_restores_registry st now image socket request :
  JsMap.get socket (sockets st) = None ->
  isNewIdentity socket request st = true ->
  let st1 := exec (onClientAuthenticated now image socket request) st in
  let st2 := exec (onClientDisconnect socket) st1 in
  clients st2 = clients st
  /\ sockets st2 = sockets st
  /\ exists user members token,
       emitted st2
       = emitted st ++ [SocketEmit socket (Ready user members token);
                        IoEmit (SysJoin user); IoEmit (SysLeave user)].
Proof.
  intros Hfresh Hnew. cbv zeta. unfold isNewIdentity in Hnew.
  rewrite exec_disconnectIfRegistered in Hnew.
  rewrite exec_login, exec_disconnect.
  rewrite (afterDisconnect_unknown socket st Hfresh) in *.
  destruct (JsMap.get (loginId request st) (clients st)) as [|] eqn:Hreg; [done|].
  clear Hnew. unfold afterAuthenticate.
  destruct (afterResolve_fields request st) as (Ecl & Eso & Ehe & Enr & Eus & Eem & Erl).
  rewrite Ecl, Hreg. cbv zeta.
  remember (prepareUser now image socket (loginId request st) request
              (User.findOne (loginId request st) (users (afterResolve request st))))
    as user eqn:Euser.
  assert (User.id user = loginId request st) as Hid
    by (subst user; apply prepareUser_id; intros u; apply findOne_id).
  unfold afterDisconnect, attach, readyEvent. simpl.
  rewrite get_set, !decide_True by done. simpl.
  assert (({[socket]} ∪ ∅ : gset string) ∖ {[socket]} = ∅) as Hemp by set_solver.
  rewrite bool_decide_eq_true_2 by done. simpl.
  unfold Client.id. simpl. rewrite Hid, Ecl, Eso, Eem.
  rewrite !delete_set_absent by done.
  split; [done|]. split; [done|].
  eexists _, _, _. rewrite <- !app_assoc. simpl. reflexivity.
Qed.

(** X10. In a consistent state, typing on a registered socket does not
    raise and emits one typing event, with the id and name of the
    client the socket is registered to; that client is registered under
    that id and has the socket among its connections. *)
Theorem typing_announces_the_owner st socket c :
  Inv st ->
  JsMap.get socket (sockets st) = Some c ->
  let id := Client.id (heap st c) in
  onClientStartTyping socket st
  = (Ok tt, add_emitted (IoEmit (UsrTyp id (Client.name (heap st c)))) st)
  /\ JsMap.get id (clients st) = Some c
  /\ socket ∈ Client.sockets (heap st c).
Proof.
  intros HI Hget. cbv zeta. destruct (inv_sockets _ HI _ _ Hget) as [Hin Hreg].
  split; [|done].
  unfold onClientStartTyping, mbind, M_bind, gets, io_emit, modify. by rewrite Hget.
Qed.

(** X11. A message of at most 256 units from a registered socket, not
    consumed by a command and allowed by the rate limiter, is
    broadcast whole: one event with the next id of the generator, the
    sender's id, the escaped text and the mentions of the text, and no
    other change than the generator's and the limiter's. *)
Theorem short_message_broadcast_whole st now socket message c st1 rl :
  JsMap.get socket (sockets st) = Some c ->
  handle (Some c) message st = (Ok false, st1) ->
  check (messageRateLimit st1) socket now = (true, rl) ->
  String.length message <= 256 ->
  onClientMessageReceived now socket message st
  = (Ok tt,
     add_emitted
       (IoEmit (UsrMsg (pretty (snowFlake st1)) (Client.id (heap st1 c))
                       (escapeHtml message) (validateEmbed None)
                       (getMentions message st1)))
       (set_snowFlake (N.succ (snowFlake st1)) (set_messageRateLimit rl st1))).
Proof.
  intros Hget Hh Hc Hlen.
  unfold onClientMessageReceived, sendMessage, nextId, mbind, M_bind,
    gets, throw, mret, M_ret, io_emit, modify.
  rewrite Hget, Hh, Hc. cbn [negb].
  assert ((256 <? String.length message) = false) as -> by (apply Nat.ltb_ge; lia).
  reflexivity.
Qed.

(** *** What each handler does to the registry, the store and the objects *)

Lemma afterDisconnect_heap socket st c :
  Client.user (heap (afterDisconnect socket st) c) = Client.user (heap st c)
  /\ Client.sockets (heap (afterDisconnect socket st) c) ∖ {[socket]}
     = Client.sockets (heap st c) ∖ {[socket]}.
Proof.
  unfold afterDisconnect. destruct (JsMap.get socket (sockets st)) as [c0|]; [|done].
  simpl. destruct (bool_decide _); simpl; case_decide; subst; simpl;
    (split; [done|set_solver]).
Qed.

Lemma afterDisconnect_rest socket st :
  nextRef (afterDisconnect socket st) = nextRef st
  /\ users (afterDisconnect socket st) = users st
  /\ snowFlake (afterDisconnect socket st) = snowFlake st
  /\ messageRateLimit (afterDisconnect socket st) = messageRateLimit st.
Proof.
  unfold afterDisconnect. destruct (JsMap.get socket (sockets st)); [|done].
  simpl. by destruct (bool_decide _).
Qed.

Lemma afterDisconnect_clients socket st :
  (clients (afterDisconnect socket st) = clients st
   /\ emitted (afterDisconnect socket st) = emitted st)
  \/ exists c, JsMap.get socket (sockets st) = Some c
       /\ clients (afterDisconnect socket st)
          = JsMap.delete (Client.id (heap st c)) (clients st)
       /\ emitted (afterDisconnect socket st)
          = emitted st ++ [IoEmit (SysLeave (Client.serialize (heap st c)))].
Proof.
  destruct (JsMap.get socket (sockets st)) as [c|] eqn:Hget.
  - destruct (afterDisconnect_known socket c st Hget) as (_ & _ & _ & Hemp & Hnemp).
    destruct (decide (Client.sockets (heap st c) ∖ {[socket]} = ∅)) as [He|He].
    + right. exists c. split; [done|]. by apply Hemp.
    + left. by apply Hnemp.
  - left. by rewrite afterDisconnect_unknown.
Qed.

Lemma afterAuthenticate_clients now image socket request st :
  let st' := afterAuthenticate now image socket request st in
  let id := loginId request st in
  match JsMap.get id (clients st) with
  | Some c =>
      clients st' = clients st /\ users st' = users st
      /\ (forall c', Client.user (heap st' c') = Client.user (heap st c'))
  | None =>
      let user := prepareUser now image socket id request (User.findOne id (users st)) in
      clients st' = JsMap.set id (nextRef st) (clients st)
      /\ users st' = User.save user (users st)
      /\ Client.user (heap st' (nextRef st)) = user
      /\ (forall c', c' <> nextRef st -> heap st' c' = heap st c')
  end.
Proof.
  cbv zeta. unfold afterAuthenticate.
  destruct (afterResolve_fields request st) as (Ecl & Eso & Ehe & Enr & Eus & Eem & Erl).
  rewrite ?Ecl, ?Eus, ?Enr, ?Ehe.
  destruct (JsMap.get (loginId request st) (clients st)) as [c|] eqn:Hreg;
    unfold attach; simpl.
  - rewrite ?Ecl, ?Eus, ?Ehe. split; [done|]. split; [done|].
    intros c'. case_decide; by subst.
  - rewrite ?Ecl, ?Eus, ?Enr, ?Ehe. rewrite ?decide_True by done. simpl.
    split; [done|]. split; [done|]. split; [done|].
    intros c' Hc'. by rewrite !decide_False.
Qed.

Lemma afterAuthenticate_sockets now image socket request st :
  forall s, s <> socket ->
    JsMap.get s (sockets (afterAuthenticate now image socket request st))
    = JsMap.get s (sockets st).
Proof.
  intros s Hs. unfold afterAuthenticate.
  destruct (afterResolve_fields request st) as (_ & Eso & _).
  destruct (JsMap.get (loginId request st) (clients (afterResolve request st)));
    unfold attach; simpl; rewrite get_set, decide_False by done; by rewrite Eso.
Qed.

Lemma afterAuthenticate_connections now image socket request st c :
  c < nextRef st ->
  Client.sockets (heap (afterAuthenticate now image socket request st) c) ∖ {[socket]}
  = Client.sockets (heap st c) ∖ {[socket]}.
Proof.
  intros Hc. unfold afterAuthenticate.
  destruct (afterResolve_fields request st) as (_ & _ & Ehe & Enr & _).
  destruct (JsMap.get (loginId request st) (clients (afterResolve request st))) as [c0|];
    unfold attach; simpl; rewrite ?Enr, ?Ehe.
  - case_decide; subst; simpl; [set_solver|done].
  - rewrite !decide_False by lia. done.
Qed.

(** X5. A login touches its own socket only: every other entry of
    [sockets] is unchanged, and every client that existed keeps its user
    record and, the login's socket apart, its connections. *)
Theorem login_leaves_other_connections_alone st now image socket request :
  let st' := exec (onClientAuthenticated now image socket request) st in
  (forall s, s <> socket -> JsMap.get s (sockets st') = JsMap.get s (sockets st))
  /\ (forall c, c < nextRef st ->
        Client.user (heap st' c) = Client.user (heap st c)
        /\ Client.sockets (heap st' c) ∖ {[socket]}
           = Client.sockets (heap st c) ∖ {[socket]}).
Proof.
  cbv zeta. rewrite exec_login. split.
  - intros s Hs. rewrite afterAuthenticate_sockets by done.
    rewrite afterDisconnect_sockets, get_delete. by rewrite decide_False.
  - intros c Hc.
    destruct (afterDisconnect_heap socket st c) as [Hu Hs].
    destruct (afterDisconnect_rest socket st) as (Enr & _).
    split.
    + rewrite <- Hu.
      pose proof (afterAuthenticate_clients now image socket request
                    (afterDisconnect socket st)) as H. cbv zeta in H.
      destruct (JsMap.get _ (clients (afterDisconnect socket st))).
      * by destruct H as (_ & _ & ->).
      * destruct H as (_ & _ & _ & ->); [done|]. rewrite Enr. lia.
    + rewrite afterAuthenticate_connections by (rewrite Enr; lia). done.
Qed.

(** *** Invariants of the runs beyond consistency *)

Lemma KeysDistinct_step (op : Op) st : KeysDistinct st -> KeysDistinct (step st op).
Proof.
  unfold KeysDistinct. intros Hnd.
  assert (forall socket, NoDup (JsMap.keys (clients (afterDisconnect socket st)))) as Hd.
  { intros socket. destruct (afterDisconnect_clients socket st) as [[-> _]|(c & _ & -> & _)];
      [done|by apply NoDup_keys_delete]. }
  destruct op as [now image socket request|socket].
  - rewrite step_login.
    pose proof (afterAuthenticate_clients now image socket request
                  (afterDisconnect socket st)) as H. cbv zeta in H.
    destruct (JsMap.get _ (clients (afterDisconnect socket st))).
    + destruct H as (-> & _). apply Hd.
    + destruct H as (-> & _). apply NoDup_keys_set, Hd.
  - rewrite step_disconnect. apply Hd.
Qed.

Lemma findOne_save_other (u : User.t) (i : string) (db : list User.t) :
  User.id u <> i -> User.findOne i (User.save u db) = User.findOne i db.
Proof.
  intros Hne. unfold User.findOne. induction db as [|u' db IH]; simpl.
  - by rewrite bool_decide_eq_false_2.
  - destruct (decide (User.id u' = User.id u)) as [Heq|Hne']; simpl.
    + rewrite !bool_decide_eq_false_2; [done|congruence|done].
    + by rewrite IH.
Qed.

Lemma StoreAgrees_step (op : Op) st : Inv st -> StoreAgrees st -> StoreAgrees (step st op).
Proof.
  intros HI Hag.
  assert (forall socket, StoreAgrees (afterDisconnect socket st)) as Hd.
  { intros socket id c Hg.
    destruct (afterDisconnect_heap socket st c) as [-> _].
    destruct (afterDisconnect_rest socket st) as (_ & -> & _).
    apply Hag.
    destruct (afterDisconnect_clients socket st) as [[E _]|(c0 & _ & E & _)];
      rewrite E in Hg; [done|].
    rewrite get_delete in Hg. by case_decide. }
  destruct op as [now image socket request|socket].
  - rewrite step_login.
    pose proof (Inv_afterDisconnect socket st HI) as HI0.
    specialize (Hd socket). set (st0 := afterDisconnect socket st) in *.
    pose proof (afterAuthenticate_clients now image socket request st0) as H.
    cbv zeta in H. intros id c Hg.
    destruct (JsMap.get (loginId request st0) (clients st0)) eqn:Hreg.
    + destruct H as (Ecl & Eus & Ehe). rewrite Ecl in Hg. rewrite Eus, Ehe. by apply Hd.
    + destruct H as (Ecl & Eus & Eu & Ehe). rewrite Ecl, get_set in Hg. rewrite Eus.
      assert (User.id (prepareUser now image socket (loginId request st0) request
                         (User.findOne (loginId request st0) (users st0)))
              = loginId request st0) as Hid
        by (apply prepareUser_id; intros u; apply findOne_id).
      case_decide as Hcase.
      * injection Hg as <-. subst id. rewrite Eu. rewrite <- Hid at 1. apply findOne_save.
      * destruct (inv_clients _ HI0 _ _ Hg) as (Hlt & _).
        rewrite Ehe by lia. rewrite findOne_save_other by congruence. by apply Hd.
  - rewrite step_disconnect. apply Hd.
Qed.

Lemma Balanced_step (op : Op) st :
  Inv st -> KeysDistinct st -> Balanced st -> Balanced (step st op).
Proof.
  unfold Balanced, KeysDistinct. intros HI Hnd Hb.
  assert (forall socket,
            length (joins (emitted (afterDisconnect socket st)))
            = length (leaves (emitted (afterDisconnect socket st)))
              + length (clients (afterDisconnect socket st))) as Hd.
  { intros socket. rewrite joins_afterDisconnect.
    destruct (afterDisconnect_clients socket st) as [[-> ->]|(c & Hget & -> & ->)]; [done|].
    destruct (inv_sockets _ HI _ _ Hget) as [_ Hreg].
    pose proof (length_delete_present _ _ _ Hnd Hreg) as Hlen.
    rewrite leaves_app, length_app. simpl. lia. }
  destruct op as [now image socket request|socket].
  - rewrite step_login, afterAuthenticate_joins, length_app.
    specialize (Hd socket). set (st0 := afterDisconnect socket st) in *.
    pose proof (afterAuthenticate_clients now image socket request st0) as H.
    cbv zeta in H.
    assert (leaves (emitted (afterAuthenticate now image socket request st0))
            = leaves (emitted st0)) as ->.
    { destruct (afterAuthenticate_trace now image socket request st0) as (c & _ & _ & ->).
      rewrite leaves_app. simpl. destruct (JsMap.get _ _); simpl; by rewrite app_nil_r. }
    destruct (JsMap.get (loginId request st0) (clients st0)) eqn:Hreg.
    + destruct H as (-> & _). simpl. lia.
    + destruct H as (-> & _). rewrite (keys_set_absent _ _ _ Hreg), length_app. simpl. lia.
  - rewrite step_disconnect. apply Hd.
Qed.

Lemma run_invariants (rl : RateLimit) (db : list User.t) (seed : N) (ops : list Op) :
  let st : State RateLimit EmbedPayload := run ops (init rl db seed) in
  Inv st /\ KeysDistinct st /\ StoreAgrees st /\ Balanced st.
Proof.
  cbv zeta.
  assert (forall st, Inv st /\ KeysDistinct st /\ StoreAgrees st /\ Balanced st ->
                     Inv (run ops st) /\ KeysDistinct (run ops st)
                     /\ StoreAgrees (run ops st) /\ Balanced (run ops st)) as H.
  { induction ops as [|op ops IH]; intros st Hst; [done|].
    rewrite run_cons. apply IH. destruct Hst as (HI & Hk & Hs & Hb).
    split; [by apply Inv_step|]. split; [by apply KeysDistinct_step|].
    split; [by apply StoreAgrees_step|by apply Balanced_step]. }
  apply H. split; [apply Inv_init|]. split; [apply NoDup_nil_2|]. by split.
Qed.

(** X6. After any sequence of logins and disconnects in which every
    handler ends before the next begins, the joins announced are as
    many as the leaves announced plus the identities registered.
    Logins that overlap announce one identity twice: see
    [demo_overlap]. *)
Theorem presence_balanced (rl : RateLimit) (db : list User.t) (seed : N)
        (ops : list Op) :
  let st : State RateLimit EmbedPayload := run ops (init rl db seed) in
  length (joins (emitted st)) = length (leaves (emitted st)) + length (clients st).
Proof. cbv zeta. by destruct (run_invariants rl db seed ops) as (_ & _ & _ & ?). Qed.

(** X7. After any sequence of logins and disconnects, the store holds,
    under the id of every registered identity, exactly the user record
    of its client, and that record carries this id. *)
Theorem registered_users_are_stored (rl : RateLimit) (db : list User.t) (seed : N)
        (ops : list Op) :
  let st : State RateLimit EmbedPayload := run ops (init rl db seed) in
  forall id c, JsMap.get id (clients st) = Some c ->
    User.findOne id (users st) = Some (Client.user (heap st c))
    /\ User.id (Client.user (heap st c)) = id.
Proof.
  cbv zeta. destruct (run_invariants rl db seed ops) as (HI & _ & Hs & _).
  intros id c Hg. split; [by apply Hs|]. by destruct (inv_clients _ HI _ _ Hg) as (_ & ? & _).
Qed.

Lemma registry_ids st :
  Inv st -> KeysDistinct st -> map Client.id (registry st) = JsMap.keys (clients st).
Proof.
  intros HI Hnd. unfold registry, JsMap.values, JsMap.keys.
  rewrite !List.map_map. apply List.map_ext_in. intros [k c] Hin. simpl.
  apply list_elem_of_In, (entry_get _ _ _ Hnd) in Hin.
  by destruct (inv_clients _ HI _ _ Hin) as (_ & ? & _).
Qed.

Lemma registry_listing st :
  Inv st -> KeysDistinct st ->
  NoDup (map Client.id (registry st))
  /\ forall id, id ∈ map Client.id (registry st) <-> is_Some (JsMap.get id (clients st)).
Proof.
  intros HI Hnd. rewrite (registry_ids _ HI Hnd). split; [done|]. intros id.
  destruct (JsMap.get id (clients st)) as [c|] eqn:Hg.
  - split; [by eexists|]. intros _.
    destruct (decide (id ∈ JsMap.keys (clients st))) as [|Hn]; [done|].
    apply get_None_keys in Hn. congruence.
  - apply get_None_keys in Hg. split; [done|]. by intros [? ?].
Qed.

(** X8. After any sequence of logins and disconnects, the snapshot of
    registered clients lists every registered id, and each once. *)
Theorem registry_lists_each_identity_once (rl : RateLimit) (db : list User.t)
        (seed : N) (ops : list Op) :
  let st : State RateLimit EmbedPayload := run ops (init rl db seed) in
  NoDup (map Client.id (registry st))
  /\ forall id, id ∈ map Client.id (registry st) <-> is_Some (JsMap.get id (clients st)).
Proof.
  cbv zeta. destruct (run_invariants rl db seed ops) as (HI & Hnd & _ & _).
  by apply registry_listing.
Qed.

Lemma idsNamed_ids (l : list Client.t) (name id : string) :
  id ∈ idsNamed l name -> id ∈ map Client.id l.
Proof.
  unfold idsNamed. intros Hin. apply list_elem_of_In, List.in_map_iff in Hin
    as (c & <- & Hc). apply List.filter_In in Hc as [Hc _].
  by apply list_elem_of_In, List.in_map.
Qed.

Lemma getMentions_ids content st id :
  id ∈ getMentions content st -> id ∈ map Client.id (registry st).
Proof.
  rewrite getMentions_unfold. intros Hin.
  apply list_elem_of_In, List.in_concat in Hin as (ids & Hids & Hin).
  apply List.in_map_iff in Hids as (name & <- & _).
  by apply (idsNamed_ids _ name), list_elem_of_In.
Qed.

(** X9. After any sequence of logins and disconnects, every id that
    [getMentions] gives for a text is the id of a registered identity. *)
Theorem mentions_name_registered_identities (rl : RateLimit) (db : list User.t)
        (seed : N) (ops : list Op) (content : string) :
  let st : State RateLimit EmbedPayload := run ops (init rl db seed) in
  forall id, id ∈ getMentions content st -> is_Some (JsMap.get id (clients st)).
Proof.
  cbv zeta. intros id Hin.
  destruct (run_invariants rl db seed ops) as (HI & Hnd & _ & _).
  apply (registry_listing _ HI Hnd), (getMentions_ids content), Hin.
Qed.

(** X2. The token of [ready] resumes the identity.  In a consistent
    state a socket logs in and is registered to a client; when the
    token service decodes the token it makes for that client's id back
    to the id, a login of another socket with that token is attached to
    the same client: both sockets are connections of it, its user
    record is unchanged and no join is announced. *)
Theorem ready_token_resumes_identity st now1 image1 s1 req1 now2 image2 s2 name2 bot2 c :
  Inv st ->
  s1 <> s2 ->
  let st1 := exec (onClientAuthenticated now1 image1 s1 req1) st in
  JsMap.get s1 (sockets st1) = Some c ->
  let id := Client.id (heap st1 c) in
  let req2 := mkRequest (Some (createToken id)) name2 bot2 in
  decodeToken req2 = Some (mkToken id) ->
  let st2 := exec (onClientAuthenticated now2 image2 s2 req2) st1 in
  JsMap.get s1 (sockets st2) = Some c
  /\ JsMap.get s2 (sockets st2) = Some c
  /\ JsMap.get id (clients st2) = Some c
  /\ s1 ∈ Client.sockets (heap st2 c)
  /\ s2 ∈ Client.sockets (heap st2 c)
  /\ Client.user (heap st2 c) = Client.user (heap st1 c)
  /\ joins (emitted st2) = joins (emitted st1).
Proof.
  intros HI Hne. cbv zeta. intros Hs1 Htok.
  assert (Inv (exec (onClientAuthenticated now1 image1 s1 req1) st)) as HI1
    by apply (Inv_step (Login now1 image1 s1 req1) st HI).
  set (st1 := exec (onClientAuthenticated now1 image1 s1 req1) st) in *.
  destruct (inv_sockets _ HI1 _ _ Hs1) as [Hin1 Hreg1].
  set (id := Client.id (heap st1 c)) in *.
  rewrite exec_login.
  destruct (afterDisconnect_keeps s2 id c st1 HI1 Hreg1) as (Hreg0 & Hso0 & Hu0).
  { right. apply (non_empty_inhabited_L s1). set_solver. }
  destruct (afterAuthenticate_registered now2 image2 s2 _ id c _ Htok Hreg0)
    as (Ecl & Eso & Ehe & Eus & _ & Ejo & _).
  rewrite Ecl, Eso, Ehe, Eus, Ejo, Hso0, Hu0, joins_afterDisconnect.
  rewrite !get_set. rewrite (decide_False (P:=s1 = s2)) by done.
  rewrite (decide_True (P:=s2 = s2)) by done.
  rewrite afterDisconnect_sockets, get_delete, decide_False by done.
  split; [done|]. split; [done|]. split; [done|]. split; [set_solver|].
  split; [set_solver|done].
Qed.

(** X17. An identity survives in the store.  After any sequence of
    logins and disconnects, when the only connection of a registered
    identity disconnects, the identity leaves the registry; a later
    login with its token and without a name override registers a new
    client for it that has the same id, name and avatar as before and
    the time of this login. *)
Theorem identity_survives_in_store (rl : RateLimit) (db : list User.t) (seed : N)
        (ops : list Op) s c now image s' request :
  let st : State RateLimit EmbedPayload := run ops (init rl db seed) in
  JsMap.get s (sockets st) = Some c ->
  Client.sockets (heap st c) = {[s]} ->
  decodeToken request = Some (mkToken (Client.id (heap st c))) ->
  req_name request = None ->
  let id := Client.id (heap st c) in
  let st1 := exec (onClientDisconnect s) st in
  let st2 := exec (onClientAuthenticated now image s' request) st1 in
  JsMap.get id (clients st1) = None
  /\ exists c', JsMap.get s' (sockets st2) = Some c'
       /\ JsMap.get id (clients st2) = Some c'
       /\ User.id (Client.user (heap st2 c')) = id
       /\ User.name (Client.user (heap st2 c')) = User.name (Client.user (heap st c))
       /\ User.avatar (Client.user (heap st2 c')) = User.avatar (Client.user (heap st c))
       /\ User.lastLogin (Client.user (heap st2 c')) = now.
Proof.
  cbv zeta. destruct (run_invariants rl db seed ops) as (HI & _ & Hs & _).
  set (st := run ops (init rl db seed)) in *. intros Hget Hone Htok Hname.
  destruct (inv_sockets _ HI _ _ Hget) as [_ Hreg].
  pose proof (Hs _ _ Hreg) as Hstored.
  rewrite exec_login, exec_disconnect.
  destruct (afterDisconnect_known s c st Hget) as (_ & _ & _ & Hemp & _).
  destruct Hemp as [Ecl _]; [rewrite Hone; set_solver|].
  destruct (afterDisconnect_rest s st) as (_ & Eus & _).
  assert (JsMap.get (Client.id (heap st c)) (clients (afterDisconnect s st)) = None) as Hnone
    by (rewrite Ecl, get_delete; by rewrite decide_True).
  split; [done|].
  set (st1 := afterDisconnect s st) in *.
  pose proof (afterDisconnect_absent s' _ st1 Hnone) as Hnone'.
  destruct (afterDisconnect_rest s' st1) as (_ & Eus' & _).
  destruct (afterAuthenticate_new now image s' request _ (afterDisconnect s' st1) Htok Hnone')
    as (Ecl2 & Eso2 & Ehe2 & _).
  exists (nextRef (afterDisconnect s' st1)).
  rewrite Ecl2, Eso2, Ehe2, !get_set, !decide_True by done.
  rewrite Eus', Eus, Hstored. unfold prepareUser. rewrite Hname. simpl.
  repeat split; done.
Qed.

End MoreProperties.

(** ** Properties of the bot *)

Lemma startsWith_String (a b : ascii) (p w : string) :
  startsWith (String a p) (String b w)
  = if decide (a = b) then startsWith p w else false.
Proof.
  unfold startsWith.
  change (String.prefix (String a p) (String b w))
    with (if ascii_dec a b then String.prefix p w else false).
  destruct (ascii_dec a b), (decide (a = b)); done.
Qed.

Lemma startsWith_empty_r (a : ascii) (p : string) :
  startsWith (String a p) EmptyString = false.
Proof. reflexivity. Qed.

(** X13. The bot ignores a join, changing nothing and sending nothing,
    exactly when it has not received [ready] yet or the join is its
    own. *)
Theorem bot_join_ignored_iff (user : Models.User) (st : Bot.State) :
  Bot.onJoin user st = (st, [])
  <-> (Bot.currentUser st = None
       \/ exists me, Bot.currentUser st = Some me /\ Models.id user = Models.id me).
Proof.
  unfold Bot.onJoin. destruct (Bot.currentUser st) as [me|] eqn:Hme.
  - destruct (decide (Models.id user = Models.id me)) as [Heq|Hne].
    + split; [|done]. intros _. right. by exists me.
    + split; [done|]. intros [?|(me' & [= <-] & ?)]; done.
  - split; [|done]. intros _. by left.
Qed.

(** X14. After [ready], the join of another user who is not in the
    table enters the user and sends the welcome; the leave of that user
    then gives back the state before the join and sends the goodbye. *)
Theorem bot_join_then_leave (user me : Models.User) (st : Bot.State) :
  Bot.currentUser st = Some me ->
  Models.id user <> Models.id me ->
  Bot.members st !! Models.id user = None ->
  let '(st1, out1) := Bot.onJoin user st in
  let '(st2, out2) := Bot.onLeave user st1 in
  Bot.members st1 !! Models.id user = Some user
  /\ st2 = st
  /\ out1 = [Bot.Emit "usr-msg" (Bot.ContentPayload ("welcome " +:+ Models.name user +:+ "!"))]
  /\ out2 = [Bot.Emit "usr-msg" (Bot.ContentPayload ("bye " +:+ Models.name user +:+ " :sob:"))].
Proof.
  intros Hme Hne Hnone. unfold Bot.onJoin, Bot.onLeave. rewrite Hme.
  rewrite decide_False by done. simpl. rewrite lookup_insert_eq.
  split; [done|]. split; [|done].
  rewrite delete_insert_eq, delete_id by done. rewrite <- Hme. by destruct st.
Qed.

Lemma startsWith_second (a b : ascii) (p content : string) :
  startsWith (String a (String b p)) content = true -> secondChar content = Some b.
Proof.
  destruct content as [|a1 [|a2 r]]; [done| |].
  - rewrite startsWith_String. by case_decide.
  - rewrite !startsWith_String. repeat case_decide; try done. by subst.
Qed.

Lemma startsWith_truthy (a : ascii) (p content : string) :
  startsWith (String a p) content = true -> truthy content = true.
Proof. by destruct content. Qed.

Lemma bot_commands_apart (content : string) :
  let check := bool_decide (content = "!check") in
  let say := startsWith "!say" content in
  let help := bool_decide (content = "!help") in
  let remind := startsWith "!remind" content in
  (check = true -> say = false /\ help = false /\ remind = false)
  /\ (say = true -> check = false /\ help = false /\ remind = false)
  /\ (help = true -> remind = false).
Proof.
  cbv zeta.
  assert (forall b, b = true \/ b = false) as Hb by (intros []; auto).
  split; [|split].
  - intros ->%bool_decide_eq_true. by vm_compute.
  - intros Hsay. pose proof (startsWith_second _ _ _ _ Hsay) as Hs.
    split; [|split].
    + apply bool_decide_eq_false. intros ->. by vm_compute in Hs.
    + apply bool_decide_eq_false. intros ->. by vm_compute in Hs.
    + destruct (Hb (startsWith "!remind" content)) as [Hr|Hr]; [|done].
      apply startsWith_second in Hr. rewrite Hr in Hs. by vm_compute in Hs.
  - intros ->%bool_decide_eq_true. by vm_compute.
Qed.

(** X15. A [message:create] makes the bot do at most one thing, a
    message or the request of [!check]; a message without content, with
    empty content or from a bot makes it do nothing. *)
Theorem bot_message_one_action (posted : bool) (message : Bot.Message) (st : Bot.State) :
  length (snd (Bot.onMessage posted message st)) <= 1
  /\ (Bot.msg_content message = None \/ Bot.msg_content message = Some EmptyString
      \/ Bot.msg_bot message = true ->
      Bot.onMessage posted message st = (Ok tt, [])).
Proof.
  unfold Bot.onMessage. destruct (Bot.msg_content message) as [content|];
    [|split; [simpl; lia|done]].
  destruct (bot_commands_apart content) as (Hcheck & Hsay & Hhelp). cbv zeta in *.
  split.
  - destruct (negb (truthy content) || Bot.msg_bot message); [simpl; lia|].
    destruct (bool_decide (content = "!check")) eqn:Ec.
    + destruct (Hcheck eq_refl) as (-> & -> & ->). destruct posted; simpl; lia.
    + cbn [andb]. destruct (startsWith "!say" content) eqn:Es.
      * destruct (Hsay eq_refl) as (_ & -> & ->).
        destruct (Bot.msg_message message); simpl; lia.
      * destruct (bool_decide (content = "!help")) eqn:Eh.
        -- rewrite Hhelp by done. simpl. lia.
        -- destruct (startsWith "!remind" content); simpl; lia.
  - intros [H|[H|H]]; [done| |].
    + by injection H as ->.
    + by rewrite H, orb_true_r.
Qed.

(** X16. For a content that starts with [!say] the bot echoes the
    [message] field of the payload from its fifth character on, not the
    content; when the payload has no [message] field the handler raises
    and sends nothing. *)
Theorem bot_say_reads_message_field (posted : bool) (message : Bot.Message)
        (content : string) (st : Bot.State) :
  Bot.msg_content message = Some content ->
  startsWith "!say" content = true ->
  Bot.msg_bot message = false ->
  (Bot.msg_message message = None ->
   Bot.onMessage posted message st = (Throw TypeError, []))
  /\ (forall text, Bot.msg_message message = Some text ->
        Bot.onMessage posted message st
        = (Ok tt, [Bot.Emit "usr-msg" (Bot.ContentPayload (substr_from 4 text))])).
Proof.
  intros Hc Hsay Hbot. unfold Bot.onMessage. rewrite Hc, Hbot, Hsay.
  rewrite (startsWith_truthy _ _ _ Hsay).
  destruct (bot_commands_apart content) as (_ & Hs & _). cbv zeta in Hs.
  destruct (Hs Hsay) as (-> & -> & ->). simpl.
  split; [by intros ->|]. by intros text ->.
Qed.

(** ** The further properties on the example states *)

Lemma connect_then_disconnect_demo :
  let st1 := exec (onClientAuthenticated 3 "owl.png" "socket-carol"
                     (demo_request None None)) demo_alice in
  let st2 := exec (onClientDisconnect "socket-carol") st1 in
  clients st2 = clients demo_alice /\ sockets st2 = sockets demo_alice.
Proof.
  pose proof (connect_then_disconnect_restores_registry demo_alice 3%N "owl.png"
                "socket-carol" (demo_request None None) eq_refl eq_refl) as H.
  exact (conj (proj1 H) (proj1 (proj2 H))).
Defined.

Lemma typing_demo :
  onClientStartTyping "socket-alice" demo_alice
  = (Ok tt, add_emitted (IoEmit (UsrTyp "u1" "Alice")) demo_alice).
Proof.
  exact (proj1 (typing_announces_the_owner demo_alice "socket-alice" 0
                  Inv_demo_alice eq_refl)).
Defined.

Lemma short_message_demo :
  exec (onClientMessageReceived 5 "socket-alice" "hi @Alice <3") demo_alice
  = add_emitted
      (IoEmit (UsrMsg "1000" "u1" "hi @Alice &lt;3" None ["u1"]))
      (set_snowFlake 1001
         (set_messageRateLimit
            (snd (check (messageRateLimit demo_alice) "socket-alice" 5%N)) demo_alice)).
Proof.
  assert (String.length "hi @Alice <3" <= 256) as Hlen by (vm_compute; lia).
  exact (f_equal snd
           (short_message_broadcast_whole demo_alice 5%N "socket-alice" "hi @Alice <3" 0
              demo_alice (snd (check (messageRateLimit demo_alice) "socket-alice" 5%N))
              eq_refl eq_refl eq_refl Hlen)).
Defined.

Lemma ready_token_demo :
  let st1 := exec (onClientAuthenticated 1 "cat.png" "socket-a"
                     (demo_request None None)) demo_init in
  let st2 := exec (onClientAuthenticated 2 "dog.png" "socket-b"
                     (demo_request (Some "signed:1000") None)) st1 in
  JsMap.get "socket-a" (sockets st2) = Some 0
  /\ JsMap.get "socket-b" (sockets st2) = Some 0.
Proof.
  assert ("socket-a" <> "socket-b") as Hne by discriminate.
  pose proof (ready_token_resumes_identity demo_init 1%N "cat.png" "socket-a"
                (demo_request None None) 2%N "dog.png" "socket-b" None false 0
                (Inv_init _ _ _) Hne eq_refl eq_refl) as H.
  exact (conj (proj1 H) (proj1 (proj2 H))).
Defined.

Lemma registered_users_are_stored_demo :
  User.findOne "u1" (users demo_alice) = Some (Client.user (heap demo_alice 0)).
Proof.
  exact (proj1 (registered_users_are_stored (RateLimit.create 5 5000) [] 1000%N
                  [Login 1 "cat.png" "socket-alice"
                         (demo_request (Some "signed:u1") (Some "Alice"))]
                  "u1" 0 eq_refl)).
Defined.

Lemma mentions_registered_demo :
  is_Some (JsMap.get "u1" (clients demo_alice)).
Proof.
  exact (mentions_name_registered_identities (RateLimit.create 5 5000) [] 1000%N
           [Login 1 "cat.png" "socket-alice"
                  (demo_request (Some "signed:u1") (Some "Alice"))]
           "hi @Alice" "u1" (list_elem_of_here "u1" [])).
Defined.

Lemma bot_join_then_leave_demo :
  fst (Bot.onLeave bot_guest (fst (Bot.onJoin bot_guest bot_ready))) = bot_ready.
Proof.
  assert (Models.id bot_guest <> Models.id bot_me) as Hne by discriminate.
  exact (proj1 (proj2 (bot_join_then_leave bot_guest bot_me bot_ready eq_refl Hne eq_refl))).
Defined.

Lemma bot_say_demo :
  Bot.onMessage true (Bot.mkMessage (Some "!say hello") false None) bot_ready
  = (Throw TypeError, []).
Proof.
  exact (proj1 (bot_say_reads_message_field true
                  (Bot.mkMessage (Some "!say hello") false None) "!say hello"
                  bot_ready eq_refl eq_refl eq_refl) eq_refl).
Defined.

Lemma identity_survives_demo :
  let st1 := exec (onClientDisconnect "socket-alice") demo_alice in
  let st2 := exec (onClientAuthenticated 9 "owl.png" "socket-alice-2"
                     (demo_request (Some "signed:u1") None)) st1 in
  JsMap.get "u1" (clients st1) = None
  /\ exists c', JsMap.get "socket-alice-2" (sockets st2) = Some c'
       /\ JsMap.get "u1" (clients st2) = Some c'
       /\ User.id (Client.user (heap st2 c')) = "u1"
       /\ User.name (Client.user (heap st2 c')) = "Alice"
       /\ User.avatar (Client.user (heap st2 c')) = "cat.png"
       /\ User.lastLogin (Client.user (heap st2 c')) = 9%N.
Proof.
  exact (identity_survives_in_store (RateLimit.create 5 5000) [] 1000%N
           [Login 1 "cat.png" "socket-alice"
                  (demo_request (Some "signed:u1") (Some "Alice"))]
           "socket-alice" 0 9%N "owl.png" "socket-alice-2"
           (demo_request (Some "signed:u1") None) eq_refl eq_refl eq_refl eq_refl).
Defined.

(** ** Logins in stages, and the ids of the generator *)

Section StagedLogin.
Context {RateLimit EmbedPayload : Type} {services : Services RateLimit EmbedPayload}.
Implicit Types (st : State RateLimit EmbedPayload) (c : Ref) (s socket id : string).

(** The stages of a login, run one after another with nothing in
    between, are the handler. *)
Lemma authAtOnce_handler now image socket request st :
  authAtOnce now image socket request st
  = onClientAuthenticated now image socket request st.
Proof.
  unfold authAtOnce, authStart, onClientAuthenticated, authenticate,
    findOrCreateClient, completeLogin, mbind, M_bind, mret, M_ret, gets.
  destruct (disconnectIfRegistered socket st) as [[[]|e] st0]; [|done].
  destruct (resolveId request st0) as [[id|e] st1]; [|done].
  cbn beta iota.
  destruct (JsMap.get id (clients st1)) as [c|]; [reflexivity|].
  cbn [authFinish authResume]. unfold mbind, M_bind, mret, M_ret, gets.
  destruct (User.findOne id (users st1)) as [u|]; reflexivity.
Qed.

(** The generator's next id is not in the registry. *)
Lemma fresh_id_unused st :
  IssuedIds st -> JsMap.get (pretty (snowFlake st)) (clients st) = None.
Proof.
  intros Hiss. destruct (JsMap.get _ (clients st)) as [c|] eqn:Hg; [|done].
  destruct (Hiss (pretty (snowFlake st))) as (n & Heq & Hlt); [by rewrite Hg|].
  apply (inj pretty) in Heq. lia.
Qed.

Lemma afterDisconnect_registered socket id st :
  is_Some (JsMap.get id (clients (afterDisconnect socket st))) ->
  is_Some (JsMap.get id (clients st)).
Proof.
  destruct (afterDisconnect_clients socket st) as [[-> _]|(c & _ & -> & _)]; [done|].
  rewrite get_delete. by case_decide; [intros [? ?]|].
Qed.

Lemma IssuedIds_afterDisconnect socket st :
  IssuedIds st -> IssuedIds (afterDisconnect socket st).
Proof.
  intros Hiss id Hid. destruct (afterDisconnect_rest socket st) as (_ & _ & -> & _).
  by apply Hiss, (afterDisconnect_registered socket).
Qed.

(** A handler keeps the registry within the issued ids, when the token
    of a login names an issued id. *)
Lemma IssuedIds_step (op : Op) st :
  IssuedIds st ->
  match op with Login _ _ _ request => TokenIssued request st | Disconnect _ => True end ->
  IssuedIds (step st op).
Proof.
  intros Hiss Htok. destruct op as [now image socket request|socket].
  - rewrite step_login.
    pose proof (IssuedIds_afterDisconnect socket st Hiss) as Hiss0.
    destruct (afterDisconnect_rest socket st) as (_ & _ & Esn & _).
    set (st0 := afterDisconnect socket st) in *.
    pose proof (afterAuthenticate_clients now image socket request st0) as H.
    cbv zeta in H.
    assert (snowFlake (afterAuthenticate now image socket request st0)
            = snowFlake (afterResolve request st0)) as Esn'.
    { unfold afterAuthenticate.
      destruct (JsMap.get _ (clients (afterResolve request st0))); reflexivity. }
    assert ((snowFlake st0 <= snowFlake (afterResolve request st0))%N
            /\ exists n, loginId request st0 = pretty n
                         /\ (n < snowFlake (afterResolve request st0))%N) as [Hle Hid].
    { unfold afterResolve, loginId. destruct (decodeToken request) as [tok|] eqn:Hd.
      - split; [lia|]. rewrite Esn. by apply Htok.
      - simpl. split; [lia|]. exists (snowFlake st0). split; [done|lia]. }
    intros id Hreg. rewrite Esn'.
    destruct (JsMap.get (loginId request st0) (clients st0)).
    + destruct H as (Ecl & _). rewrite Ecl in Hreg.
      destruct (Hiss0 id Hreg) as (n & -> & Hn). exists n. split; [done|lia].
    + destruct H as (Ecl & _). rewrite Ecl, get_set in Hreg. case_decide as Hcase.
      * by subst id.
      * destruct (Hiss0 id Hreg) as (n & -> & Hn). exists n. split; [done|lia].
  - rewrite step_disconnect. by apply IssuedIds_afterDisconnect.
Qed.

Lemma IssuedIds_run (ops : list Op) st :
  IssuedIds st -> TokensIssued ops st -> IssuedIds (run ops st).
Proof.
  revert st. induction ops as [|op ops IH]; intros st Hiss Htok; [done|].
  destruct Htok as [Hop Htok]. rewrite run_cons. apply IH; [|done].
  by apply IssuedIds_step.
Qed.

Lemma IssuedIds_init rl db seed :
  IssuedIds (init rl db seed : State RateLimit EmbedPayload).
Proof. intros id [c Hc]. done. Qed.

(** C4. An invalid token is no token.  In a registry whose ids were
    issued by the generator, as every run from the constructed manager
    with tokens of issued ids leaves it ([IssuedIds_run]): when
    decoding the supplied token raises, the login computes exactly what
    it computes for the same request without a token and does not
    raise.  The id it takes is the generator's next one; no identity
    is registered under it, and the generator does not give it again.
    The login creates the identity of that id, as a new client with the
    socket as its only connection, registers the socket to it and
    announces its join; with no stored record and no name override, its
    name is the placeholder derived from the socket id. *)
Theorem invalid_token_is_anonymous st now image socket request t :
  IssuedIds st ->
  req_token request = Some t ->
  decode t = None ->
  let anonymous := mkRequest None (req_name request) (req_bot request) in
  let st0 := exec (disconnectIfRegistered socket) st in
  let st' := exec (onClientAuthenticated now image socket request) st in
  let id := pretty (snowFlake st) in
  let c := nextRef st0 in
  onClientAuthenticated now image socket request st
  = onClientAuthenticated now image socket anonymous st
  /\ result (onClientAuthenticated now image socket request) st = Ok tt
  /\ JsMap.get id (clients st) = None
  /\ snowFlake st' = N.succ (snowFlake st)
  /\ (forall n, (snowFlake st' <= n)%N -> pretty n <> id)
  /\ JsMap.get id (clients st') = Some c
  /\ JsMap.get socket (sockets st') = Some c
  /\ Client.id (heap st' c) = id
  /\ Client.sockets (heap st' c) = {[socket]}
  /\ joins (emitted st') = joins (emitted st) ++ [Client.serialize (heap st' c)]
  /\ (User.findOne id (users st) = None -> req_name request = None ->
      Client.name (heap st' c) = "anon-" +:+ substr 0 6 socket).
Proof.
  intros Hiss Hreq Hdec. cbv zeta.
  pose proof (invalid_token_login st now image socket request t Hreq Hdec) as H.
  cbv zeta in H. destruct H as (Heq & Hok & Hsn & (c0 & Hs & Hc & _) & Hnew).
  assert (JsMap.get (pretty (snowFlake st))
                    (clients (exec (disconnectIfRegistered socket) st)) = None) as Hfresh.
  { rewrite exec_disconnectIfRegistered.
    destruct (afterDisconnect_rest socket st) as (_ & _ & Esn & _). rewrite <- Esn.
    by apply fresh_id_unused, IssuedIds_afterDisconnect. }
  destruct (Hnew Hfresh) as (Hc' & Hid & Hset & Hj & Hname).
  rewrite Hc' in Hc. injection Hc as <-.
  split; [done|]. split; [done|]. split; [by apply fresh_id_unused|].
  split; [done|]. split; [|done].
  intros n Hle Hn. apply (inj pretty) in Hn. rewrite Hsn in Hle. lia.
Qed.

End StagedLogin.

(** The ids of the example registry were issued by the generator. *)
Lemma IssuedIds_demo_anonymous : IssuedIds demo_anonymous.
Proof.
  apply IssuedIds_run; [apply IssuedIds_init|].
  split; [|done]. intros token Htoken. discriminate Htoken.
Qed.

(** C4 on the example state: a forged token.  The generator stands at
    1001, and the login creates the identity of that id. *)
Lemma invalid_token_demo :
  onClientAuthenticated 3 "owl.png" "socket-carol"
    (demo_request (Some "forged") None) demo_anonymous
  = onClientAuthenticated 3 "owl.png" "socket-carol"
    (demo_request None None) demo_anonymous
  /\ JsMap.get "1001" (clients demo_anonymous) = None
  /\ JsMap.get "1001"
       (clients (exec (onClientAuthenticated 3 "owl.png" "socket-carol"
                         (demo_request (Some "forged") None)) demo_anonymous))
     = Some 1.
Proof.
  pose proof (invalid_token_is_anonymous demo_anonymous 3%N "owl.png" "socket-carol"
                (demo_request (Some "forged") None) "forged"
                IssuedIds_demo_anonymous eq_refl eq_refl) as H.
  exact (conj (proj1 H)
              (conj (proj1 (proj2 (proj2 H)))
                    (proj1 (proj2 (proj2 (proj2 (proj2 (proj2 H)))))))).
Defined.

(** C1. Registry consistency fails when logins overlap.  Two sockets
    log in with the token of the same identity, [u1], which is not
    registered; the second login starts while the first waits for the
    store, so both find no client at l.74 and both create one
    (l.104-105).  When both have ended, [clients] holds the second
    client only, while [socket-a] is an entry of [sockets] whose client,
    of id [u1], is not the one [clients] holds; the join of [u1] was
    announced twice and no leave.  When [socket-a] then disconnects,
    its client has no connection left and l.129 removes [u1] from
    [clients]: the identity is out of the registry while [socket-b], a
    live entry of [sockets], belongs to it. *)
Theorem overlapping_logins_break_registry :
  let leaving := exec (onClientDisconnect "socket-a") demo_overlap in
  clients demo_overlap = [("u1", 1)]
  /\ sockets demo_overlap = [("socket-a", 0); ("socket-b", 1)]
  /\ Client.id (heap demo_overlap 0) = "u1"
  /\ length (joins (emitted demo_overlap)) = 2
  /\ leaves (emitted demo_overlap) = []
  /\ clients leaving = []
  /\ sockets leaving = [("socket-b", 1)]
  /\ Client.id (heap leaving 1) = "u1"
  /\ elements (Client.sockets (heap leaving 1)) = ["socket-b"]
  /\ JsMap.get (Client.id (heap leaving 1)) (clients leaving) = None.
Proof. repeat split; vm_compute; reflexivity. Qed.
